(** * Pig (pig_extended.py): a shallow embedding and its verified properties

    The program is a console game for two players.  Its only sources of
    non-determinism are the die ([random.randint]), the keyboard ([input])
    and the wall clock ([time.time]).  They are modelled as oracles: finite
    lists of the values the three calls return, consumed from the front.
    Everything the program prints is recorded as a list of structured
    events, one per [print] or [input] call of the source.

    Python integers are unbounded, so scores, rolls and turn totals are [Z].
    Python floats are IEEE 754 binary64, as Rocq's primitive floats are. *)

From Stdlib Require Import ZArith Lia Ascii String Floats.
From Stdlib Require Import DecimalString DecimalPos DecimalZ.
From stdpp Require Import base tactics option list.

Local Open Scope string_scope.
Local Open Scope Z_scope.
Local Open Scope list_scope.

(** ** Text: [str.strip] and [str.lower]

    A [string] is read as a Python [str] whose code points are all below
    256 (Latin-1); each [ascii] is the code point of that number. *)

Module Text.

(** The code points below 256 that [str.isspace] accepts: TAB, LF, VT, FF,
    CR, FS, GS, RS, US, SPACE, NEL and NO-BREAK SPACE. *)
Definition is_space (c : ascii) : bool :=
  let n := N_of_ascii c in
  ((9 <=? n) && (n <=? 13) || (28 <=? n) && (n <=? 32)
   || (n =? 133) || (n =? 160))%N.

Fixpoint lstrip (s : string) : string :=
  match s with
  | EmptyString => EmptyString
  | String c s' => if is_space c then lstrip s' else s
  end.

Fixpoint rstrip (s : string) : string :=
  match s with
  | EmptyString => EmptyString
  | String c s' =>
      match rstrip s' with
      | EmptyString => if is_space c then EmptyString else String c EmptyString
      | t => String c t
      end
  end.

(** [s.strip()] *)
Definition strip (s : string) : string := rstrip (lstrip s).

(** Lowercase of one code point below 256: A-Z and the accented capitals
    U+00C0..U+00DE (the multiplication sign U+00D7 apart) move up by 32. *)
Definition lower_char (c : ascii) : ascii :=
  let n := N_of_ascii c in
  if ((65 <=? n) && (n <=? 90)
      || (192 <=? n) && (n <=? 222) && negb (n =? 215))%N
  then ascii_of_N (n + 32) else c.

(** [s.lower()] *)
Fixpoint lower (s : string) : string :=
  match s with
  | EmptyString => EmptyString
  | String c s' => String (lower_char c) (lower s')
  end.

End Text.

(** ** Players *)

(** The two classes the factory instantiates: [HumanPlayer], [ComputerPlayer]. *)
Inductive PlayerKind := Human | Computer.

(** An instance of (a subclass of) [Player]. *)
Record Player := mkPlayer {
  kind : PlayerKind;
  name : string;
  score : Z
}.

(** [Player.__init__(self, name)], called through the subclass [k]. *)
Definition Player_init (k : PlayerKind) (nm : string) : Player :=
  {| kind := k; name := nm; score := 0 |}.

(** [Player.reset_score] *)
Definition reset_score (p : Player) : Player :=
  {| kind := kind p; name := name p; score := 0 |}.

(** [ComputerPlayer.decide]: returns the string ['h'] or ['r']. *)
Definition decide (self : Player) (turn_total : Z) : string :=
  if turn_total >=? Z.min 25 (100 - score self) then "h" else "r".

(** Python exceptions the program can raise. *)
Inductive exn :=
| ValueError (msg : string)
| IndexError
| ZeroDivisionError
| EOFError
| OverflowError
| EmptyMaxError   (* the ValueError of [max] on an empty list *)
| SystemExit.

(** [PlayerFactory.create_player] *)
Definition create_player (player_type nm : string) : exn + Player :=
  if String.eqb player_type "human" then inr (Player_init Human nm)
  else if String.eqb player_type "computer" then inr (Player_init Computer nm)
  else inl (ValueError "Unknown player type: must be 'human' or 'computer'").

(** ** The game object *)

Record PigGame := mkGame {
  players : list Player;
  current_player_index : nat
}.

(** [PigGame.__init__]: the list of players is built left to right, so the
    first failing [create_player] aborts the construction. *)
Definition PigGame_init (player1_type player2_type : string) : exn + PigGame :=
  match create_player player1_type "Player 1" with
  | inl e => inl e
  | inr p1 =>
      match create_player player2_type "Player 2" with
      | inl e => inl e
      | inr p2 => inr {| players := [p1; p2]; current_player_index := 0 |}
      end
  end.

(** [PigGame.is_game_over] *)
Definition is_game_over (g : PigGame) : bool :=
  existsb (fun player => score player >=? 100) (players g).

(** [PigGame.reset_game] *)
Definition reset_game (g : PigGame) : PigGame :=
  {| players := map reset_score (players g); current_player_index := 0 |}.

(** [max(players, key=lambda player: player.score)]: the scan keeps the item
    seen first among those of maximal key, and fails on an empty list. *)
Fixpoint max_from (best : Player) (ps : list Player) : Player :=
  match ps with
  | [] => best
  | p :: ps' => max_from (if score p >? score best then p else best) ps'
  end.

Definition max_by_score (ps : list Player) : option Player :=
  match ps with
  | [] => None
  | p :: ps' => Some (max_from p ps')
  end.

(** ** Console, die and clock *)

(** One constructor per [print] call of the source (and one for the prompt
    that [input] writes), carrying the values the f-string interpolates. *)
Inductive event :=
| ERolled (player_name : string) (roll : Z)        (* "{name} rolled a {roll}" *)
| EScoresNothing (player_name : string)            (* "{name} scores nothing this turn." *)
| ETurnTotal (turn_total : Z) (player : Player)    (* "Turn total: {turn_total}, {player}" *)
| EDecides (player_name : string) (hold : bool)    (* "{name} decides to hold / roll again." *)
| EPrompt                                          (* input("Roll again (r), hold (h), or quit ...") *)
| EThanks                                          (* "Thanks for playing! Exiting the game." *)
| EHolds (player_name : string) (total : Z)        (* "{name} holds. Total score: {score}" *)
| EWelcome                                         (* "Welcome to the game of Pig!" *)
| EStartTimed                                      (* "Starting timed game of Pig!" *)
| ETimeUp (elapsed_time : float)                   (* "Time's up! The game lasted {int(elapsed_time)} seconds." *)
| EWins (player_name : string) (total : Z)         (* "{name} wins with {score} points!" *)
| EFinalScores                                     (* "Final Scores:" *)
| EPlayerLine (player : Player).                   (* print(player) *)

(** What is still to come from the die, the keyboard and the clock, and
    what has been written to the console so far (oldest first). *)
Record World := mkWorld {
  rolls : list Z;
  inputs : list string;
  clock : list float;
  out : list event
}.

Definition State : Type := PigGame * World.

(** How a computation ends: normally, by a Python exception, or [Starved]
    when it asks the die or the clock for a value beyond the finite prefix
    the [World] holds. [Starved] is an artefact of the model: a real run
    always gets its value. *)
Inductive result (A : Type) :=
| Ret (a : A)
| Raise (e : exn)
| Starved.
Arguments Ret {A} a.
Arguments Raise {A} e.
Arguments Starved {A}.

(** State and exceptions: mutations made before a [raise] persist. *)
Definition M (A : Type) : Type := State -> result A * State.

#[global] Instance M_ret : MRet M := fun A a s => (Ret a, s).

#[global] Instance M_bind : MBind M := fun A B f m s =>
  match m s with
  | (Ret a, s') => f a s'
  | (Raise e, s') => (Raise e, s')
  | (Starved, s') => (Starved, s')
  end.

Definition raise {A} (e : exn) : M A := fun s => (Raise e, s).

Definition get_game : M PigGame := fun s => (Ret (fst s), s).

Definition modify_game (f : PigGame -> PigGame) : M unit :=
  fun s => (Ret tt, (f (fst s), snd s)).

(** [print(...)] *)
Definition print (e : event) : M unit := fun s =>
  let w := snd s in
  (Ret tt, (fst s, {| rolls := rolls w; inputs := inputs w; clock := clock w;
                      out := out w ++ [e] |})).

(** [Die.roll]: [random.randint(1, 6)] *)
Definition Die_roll : M Z := fun s =>
  let w := snd s in
  match rolls w with
  | [] => (Starved, s)
  | r :: rs => (Ret r, (fst s, {| rolls := rs; inputs := inputs w;
                                  clock := clock w; out := out w |}))
  end.

(** [input(prompt)]: writes the prompt, then reads one line; at the end of
    the input it raises [EOFError]. *)
Definition input : M string := fun s =>
  let w := snd s in
  match inputs w with
  | [] => (Raise EOFError, (fst s, {| rolls := rolls w; inputs := [];
                                      clock := clock w; out := out w ++ [EPrompt] |}))
  | line :: rest => (Ret line, (fst s, {| rolls := rolls w; inputs := rest;
                                          clock := clock w; out := out w ++ [EPrompt] |}))
  end.

(** [time.time()] *)
Definition time_time : M float := fun s =>
  let w := snd s in
  match clock w with
  | [] => (Starved, s)
  | t :: ts => (Ret t, (fst s, {| rolls := rolls w; inputs := inputs w;
                                  clock := ts; out := out w |}))
  end.

(** [for x in l: f(x)] *)
Fixpoint for_each {A} (f : A -> M unit) (l : list A) : M unit :=
  match l with
  | [] => mret tt
  | x :: l' => f x ;; for_each f l'
  end.

(** [while True: ...]: the body either goes round again with a new value of
    the loop's variables ([inl]) or leaves the loop ([inr], a [break]). *)
Fixpoint loop_fuel {A B} (body : A -> M (A + B)) (fuel : nat) (a : A) : M B :=
  match fuel with
  | O => fun s => (Starved, s)
  | S n => x ← body a; match x with
                       | inl a' => loop_fuel body n a'
                       | inr b => mret b
                       end
  end.

(** Every loop of the program rolls the die at least once per round, so one
    more unit of fuel than there are rolls left is never used up
    (see [while_unfold]). *)
Definition while {A B} (body : A -> M (A + B)) (a : A) : M B := fun s =>
  loop_fuel body (S (length (rolls (snd s)))) a s.

(** ** [PigGame]'s methods *)

(** [PigGame.switch_player] *)
Definition switch_player : M unit := fun s =>
  let g := fst s in
  match length (players g) with
  | O => (Raise ZeroDivisionError, s)
  | n => (Ret tt, ({| players := players g;
                      current_player_index := (current_player_index g + 1) mod n |},
                   snd s))
  end.

(** [current_player.score += turn_total], where [current_player] is the
    object held in slot [i] of [self.players]. *)
Definition add_score (i : nat) (turn_total : Z) (g : PigGame) : PigGame :=
  {| players := alter (fun p => {| kind := kind p; name := name p;
                                   score := score p + turn_total |}) i (players g);
     current_player_index := current_player_index g |}.

(** Reading through the reference [current_player]. *)
Definition deref (i : nat) : M Player := fun s =>
  match players (fst s) !! i with
  | Some p => (Ret p, s)
  | None => (Raise IndexError, s)
  end.

(** [decision in ['q', 'quit', 'exit']] *)
Definition is_quit (decision : string) : bool :=
  existsb (String.eqb decision) ["q"; "quit"; "exit"].

(** The decision of the current player (lines 81-89 of the source). *)
Definition get_decision (current_player : Player) (turn_total : Z) : M string :=
  match kind current_player with
  | Computer =>
      let decision := decide current_player turn_total in
      print (EDecides (name current_player) (String.eqb decision "h")) ;;
      mret decision
  | Human =>
      line ← input;
      let decision := Text.lower (Text.strip line) in
      if is_quit decision then print EThanks ;; raise SystemExit
      else mret decision
  end.

(** One round of the [while True] loop of [play_turn]; [i] is the slot of
    [current_player]. The value handed to [break] is [turn_total]. *)
Definition turn_body (i : nat) (turn_total : Z) : M (Z + Z) :=
  roll ← Die_roll;
  current_player ← deref i;
  print (ERolled (name current_player) roll) ;;
  if roll =? 1 then
    print (EScoresNothing (name current_player)) ;;
    mret (inr turn_total)
  else
    let turn_total := turn_total + roll in
    print (ETurnTotal turn_total current_player) ;;
    decision ← get_decision current_player turn_total;
    if String.eqb decision "h" then
      modify_game (add_score i turn_total) ;;
      current_player ← deref i;
      print (EHolds (name current_player) (score current_player)) ;;
      mret (inr turn_total)
    else mret (inl turn_total).

(** The loop of [play_turn], entered with a given turn total. *)
Definition turn_loop (i : nat) (turn_total : Z) : M Z :=
  while (turn_body i) turn_total.

(** [PigGame.play_turn] *)
Definition play_turn : M unit :=
  g ← get_game;
  let i := current_player_index g in
  _ ← deref i;
  _ ← turn_loop i 0;
  switch_player.

(** Lines 108-112 (and 145-149): the winner and the final scores. *)
Definition announce_winner : M unit :=
  g ← get_game;
  match max_by_score (players g) with
  | None => raise EmptyMaxError
  | Some winner =>
      print (EWins (name winner) (score winner)) ;;
      print EFinalScores ;;
      for_each (fun player => print (EPlayerLine player)) (players g)
  end.

(** One round of [while not self.is_game_over(): self.play_turn()]. *)
Definition game_body (_ : unit) : M (unit + unit) :=
  g ← get_game;
  if is_game_over g then mret (inr tt)
  else play_turn ;; mret (inl tt).

Definition game_loop : M unit := while game_body tt.

(** [PigGame.play_game] *)
Definition play_game : M unit :=
  print EWelcome ;;
  game_loop ;;
  announce_winner.

(** ** [TimedGameProxy] *)

(** The proxy's [game] field is the one game object of the [State]. An
    integer limit such as the default 60 is the float of the same value. *)
Record TimedGameProxy := mkProxy { time_limit : float }.

(** [TimedGameProxy.__init__(self, game, time_limit=60)] *)
Definition TimedGameProxy_init (limit : option float) : TimedGameProxy :=
  {| time_limit := default 60%float limit |}.

(** [int(elapsed_time)] fails on an infinite float. *)
Definition check_int (x : float) : M unit :=
  if PrimFloat.is_infinity x then raise OverflowError else mret tt.

(** One round of the loop of [TimedGameProxy.play_game]. *)
Definition timed_body (self : TimedGameProxy) (start_time : float) (_ : unit)
  : M (unit + unit) :=
  g ← get_game;
  if is_game_over g then mret (inr tt)
  else
    current_time ← time_time;
    let elapsed_time := PrimFloat.sub current_time start_time in
    if PrimFloat.ltb (time_limit self) elapsed_time then
      check_int elapsed_time ;;
      print (ETimeUp elapsed_time) ;;
      mret (inr tt)
    else play_turn ;; mret (inl tt).

Definition timed_loop (self : TimedGameProxy) (start_time : float) : M unit :=
  while (timed_body self start_time) tt.

(** [TimedGameProxy.play_game] *)
Definition timed_play_game (self : TimedGameProxy) : M unit :=
  start_time ← time_time;
  print EStartTimed ;;
  timed_loop self start_time ;;
  announce_winner.

(** [main(player1_type, player2_type, timed)]: when the construction of the
    game fails there is no game at all. *)
Definition main (player1_type player2_type : string) (timed : bool) (w : World)
  : result unit * option State :=
  match PigGame_init player1_type player2_type with
  | inl e => (Raise e, None)
  | inr game =>
      let '(r, s) := (if timed then timed_play_game (TimedGameProxy_init None)
                      else play_game) (game, w) in
      (r, Some s)
  end.

(** ** Vocabulary of the statements *)

(** A loop body is consuming when every round that goes on has taken at
    least one roll of the die. *)
Definition consuming {A B} (body : A -> M (A + B)) : Prop :=
  forall a s a' s', body a s = (Ret (inl a'), s') ->
    (length (rolls (snd s')) < length (rolls (snd s)))%nat.

(** The faces of the die: what [random.randint(1, 6)] returns. *)
Definition valid_roll (r : Z) : Prop := 1 <= r <= 6.

(** [scores_le g g']: same players in the same slots (name and class kept),
    none with a lower score. *)
Definition player_le (p p' : Player) : Prop :=
  kind p' = kind p /\ name p' = name p /\ score p <= score p'.

Definition scores_le (g g' : PigGame) : Prop :=
  Forall2 player_le (players g) (players g').

Definition scores_nonneg (g : PigGame) : Prop :=
  Forall (fun p => 0 <= score p) (players g).

(** The world after the console has received [evs] and the die has been
    rolled down to [rs] and the keyboard read down to [ins]. *)
Definition advance (w : World) (rs : list Z) (ins : list string)
  (evs : list event) : World :=
  {| rolls := rs; inputs := ins; clock := clock w; out := out w ++ evs |}.

(** The winner [max] picks: in the list, of maximal score, and before every
    other player of the same score. *)
Definition first_of_max_score (ps : list Player) (winner : Player) : Prop :=
  exists i : nat,
    ps !! i = Some winner /\
    (forall (j : nat) q, ps !! j = Some q -> score q <= score winner) /\
    (forall (j : nat) q, ps !! j = Some q -> (j < i)%nat -> score q < score winner).

(** Events of a turn that is still going on: no roll of 1 yet, nothing
    banked yet. *)
Definition ongoing (evs : list event) : Prop :=
  (forall n, ~ In (ERolled n 1) evs) /\ (forall n total, ~ In (EHolds n total) evs).

(** How the loop of a turn can end, seen from the state [(g0, w0)] it was
    entered in with turn total [t0]: by a roll of 1, by banking, or by a
    failure. *)
Inductive turn_end (i : nat) (t0 : Z) (g0 : PigGame) (w0 : World)
  : result Z -> State -> Prop :=
| turn_forfeited p pre total w' :
    players g0 !! i = Some p ->
    out w' = out w0 ++ pre ++ [ERolled (name p) 1; EScoresNothing (name p)] ->
    ongoing pre ->
    turn_end i t0 g0 w0 (Ret total) (g0, w')
| turn_banked p pre total w' :
    players g0 !! i = Some p ->
    out w' = out w0 ++ pre ++ [EHolds (name p) (score p + total)] ->
    ongoing pre ->
    (Forall valid_roll (rolls w0) -> t0 + 2 <= total) ->
    turn_end i t0 g0 w0 (Ret total) (add_score i total g0, w')
| turn_failed res evs w' :
    (forall total, res <> Ret total) ->
    out w' = out w0 ++ evs ->
    ongoing evs ->
    turn_end i t0 g0 w0 res (g0, w').

(** The game once the turn has passed to the next player, with [ps] as
    the players. *)
Definition pass_turn (g : PigGame) (ps : list Player) : PigGame :=
  {| players := ps;
     current_player_index := (current_player_index g + 1) mod length (players g) |}.

(** How [play_turn] can end, seen from the state [(g, w)] it is called in. *)
Inductive play_turn_end (g : PigGame) (w : World) : result unit -> State -> Prop :=
| played_forfeit p pre w' :
    players g !! current_player_index g = Some p ->
    out w' = out w ++ pre ++ [ERolled (name p) 1; EScoresNothing (name p)] ->
    ongoing pre ->
    play_turn_end g w (Ret tt) (pass_turn g (players g), w')
| played_bank p pre total w' :
    players g !! current_player_index g = Some p ->
    out w' = out w ++ pre ++ [EHolds (name p) (score p + total)] ->
    ongoing pre ->
    (Forall valid_roll (rolls w) -> 2 <= total) ->
    play_turn_end g w (Ret tt)
      (pass_turn g (players (add_score (current_player_index g) total g)), w')
| played_fail res evs w' :
    res <> Ret tt ->
    out w' = out w ++ evs ->
    ongoing evs ->
    play_turn_end g w res (g, w').

(** What a game that ran to its end has reported: a winner that [max]
    picked among the final scores, then every player. *)
Definition reports_winner (s' : State) : Prop :=
  exists winner pre,
    first_of_max_score (players (fst s')) winner /\
    out (snd s') =
      pre ++ EWins (name winner) (score winner) :: EFinalScores
          :: map EPlayerLine (players (fst s')).

(** A computation keeps the scores when, run on valid rolls, it leaves valid
    rolls and no player with a lower score, however it ends. *)
Definition keeps_scores {A} (m : M A) : Prop :=
  forall s res s',
    Forall valid_roll (rolls (snd s)) ->
    m s = (res, s') ->
    Forall valid_roll (rolls (snd s')) /\ scores_le (fst s) (fst s').

(** The current player index points into the list of players. *)
Definition well_formed (g : PigGame) : Prop :=
  (current_player_index g < length (players g))%nat.

(** Two games hold the same players: as many, with the same names and
    classes slot by slot (the scores may differ). *)
Definition same_players (g g' : PigGame) : Prop :=
  map name (players g') = map name (players g) /\
  map kind (players g') = map kind (players g).

Definition all_computer (g : PigGame) : Prop :=
  Forall (fun p => kind p = Computer) (players g).

(** The sum of the rolls of a turn. *)
Definition sum_rolls (rs : list Z) : Z := foldr Z.add 0 rs.

(** The turn total at which a computer player with this score banks. *)
Definition threshold (p : Player) : Z := Z.min 25 (100 - score p).

(** The ways a game started on a well-formed state can end: normally, by the
    player quitting, by the end of the input, or by the oracle running dry. *)
Definition plain_end {A} (res : result A) : Prop :=
  match res with
  | Ret _ | Raise SystemExit | Raise EOFError | Starved => True
  | Raise _ => False
  end.

(** What a game between computer players keeps: a valid index, computer
    players only, valid rolls ahead, the keyboard as it was ([ins0]), and no
    score above 105. *)
Definition computer_game_inv (ins0 : list string) (s : State) : Prop :=
  well_formed (fst s) /\
  all_computer (fst s) /\
  Forall valid_roll (rolls (snd s)) /\
  inputs (snd s) = ins0 /\
  Forall (fun p => score p <= 105) (players (fst s)).

(** The world with other readings left on the clock. *)
Definition with_clock (cs : list float) (w : World) : World :=
  {| rolls := rolls w; inputs := inputs w; clock := cs; out := out w |}.

(** [str(n)] of a Python int: its decimal digits, after a minus sign when
    it is negative. *)
Definition str_int (n : Z) : string := NilZero.string_of_int (Z.to_int n).

(** [Player.__str__]: the f-string "{self.name}: {self.score} points". *)
Definition Player_str (self : Player) : string :=
  String.append (name self)
    (String.append ": " (String.append (str_int (score self)) " points")).

(** ** The monad and the loops *)

Ltac run_unfold :=
  unfold turn_body, get_decision, announce_winner, switch_player, check_int,
    mbind, M_bind, mret, M_ret, print, raise, get_game, modify_game,
    deref, Die_roll, input, time_time in *.

Ltac run := repeat (progress (run_unfold; simpl in * ) || case_match || simplify_eq).

Lemma bind_run {A B} (m : M A) (f : A -> M B) s :
  (x ← m; f x) s =
  match m s with
  | (Ret a, s') => f a s'
  | (Raise e, s') => (Raise e, s')
  | (Starved, s') => (Starved, s')
  end.
Proof. reflexivity. Qed.

(** Hoare-style rule for the loops: an invariant [I] of the rounds that go
    on, a postcondition [Q] for every way of leaving. *)
Lemma loop_fuel_inv {A B} (body : A -> M (A + B))
    (I : A -> State -> Prop) (Q : result B -> State -> Prop) :
  (forall a s res s', I a s -> body a s = (res, s') ->
     match res with
     | Ret (inl a') => I a' s'
     | Ret (inr b) => Q (Ret b) s'
     | Raise e => Q (Raise e) s'
     | Starved => Q Starved s'
     end) ->
  (forall a s, I a s -> Q Starved s) ->
  forall fuel a s res s',
    I a s -> loop_fuel body fuel a s = (res, s') -> Q res s'.
Proof.
  intros Hbody Hout fuel.
  induction fuel as [|n IH]; intros a s res s' Ha Hrun; simpl in Hrun.
  - inversion Hrun; subst. eauto.
  - rewrite bind_run in Hrun.
    destruct (body a s) as [r1 s1] eqn:Hb.
    specialize (Hbody a s r1 s1 Ha Hb).
    destruct r1 as [[a' | b] | e |]; simpl in Hbody, Hrun.
    + exact (IH _ _ _ _ Hbody Hrun).
    + inversion Hrun; subst. assumption.
    + inversion Hrun; subst. assumption.
    + inversion Hrun; subst. assumption.
Qed.

(** With a consuming body any fuel above the number of rolls left gives the
    same run. *)
Lemma loop_fuel_enough {A B} (body : A -> M (A + B)) :
  consuming body ->
  forall n m a s,
    (length (rolls (snd s)) < n)%nat -> (length (rolls (snd s)) < m)%nat ->
    loop_fuel body n a s = loop_fuel body m a s.
Proof.
  intros Hc n.
  induction n as [|n IH]; intros m a s Hn Hm; [lia|].
  destruct m as [|m]; [lia|].
  simpl. rewrite !bind_run.
  destruct (body a s) as [r1 s1] eqn:Hb.
  destruct r1 as [[a' | b] | e |]; try reflexivity.
  apply Hc in Hb. apply IH; lia.
Qed.

(** The equation of [while True: body]: one round, then the loop again. *)
Lemma while_unfold {A B} (body : A -> M (A + B)) :
  consuming body ->
  forall a s,
    while body a s =
    (x ← body a; match x with
                 | inl a' => while body a'
                 | inr b => mret b
                 end) s.
Proof.
  intros Hc a s. unfold while at 1. simpl. rewrite !bind_run.
  destruct (body a s) as [r1 s1] eqn:Hb.
  destruct r1 as [[a' | b] | e |]; try reflexivity.
  unfold while. apply loop_fuel_enough; auto.
  apply Hc in Hb. lia.
Qed.

Lemma turn_body_consuming i : consuming (turn_body i).
Proof.
  intros t [g w] t' [g' w'] H. run; lia.
Qed.

(** ** [max] over the players *)

Lemma max_from_spec ps : forall (pre : list Player) best (i : nat),
  pre !! i = Some best ->
  (forall (j : nat) q, pre !! j = Some q -> score q <= score best) ->
  (forall (j : nat) q, pre !! j = Some q -> (j < i)%nat -> score q < score best) ->
  first_of_max_score (pre ++ ps) (max_from best ps).
Proof.
  induction ps as [|p ps IH]; intros pre best i Hi Hmax Hfirst; simpl.
  - rewrite app_nil_r. exists i. auto.
  - replace (pre ++ p :: ps) with ((pre ++ [p]) ++ ps)
      by (rewrite <- app_assoc; reflexivity).
    destruct (score p >? score best) eqn:Hcmp.
    + apply Z.gtb_lt in Hcmp.
      apply (IH (pre ++ [p]) p (length pre)).
      * apply lookup_snoc_Some. right. auto.
      * intros j q Hq. apply lookup_snoc_Some in Hq as [[_ Hq] | [_ ->]]; [|lia].
        specialize (Hmax j q Hq). lia.
      * intros j q Hq Hlt. apply lookup_snoc_Some in Hq as [[_ Hq] | [-> _]]; [|lia].
        specialize (Hmax j q Hq). lia.
    + assert (score p <= score best) as Hle.
      { destruct (Z.gtb_spec (score p) (score best)); [discriminate | lia]. }
      apply (IH (pre ++ [p]) best i).
      * apply lookup_snoc_Some. left. split; [|assumption].
        eapply lookup_lt_Some; eauto.
      * intros j q Hq. apply lookup_snoc_Some in Hq as [[_ Hq] | [_ ->]]; eauto.
      * intros j q Hq Hlt. apply lookup_snoc_Some in Hq as [[_ Hq] | [-> _]]; eauto.
        apply lookup_lt_Some in Hi. lia.
Qed.

Lemma max_by_score_spec ps winner :
  max_by_score ps = Some winner -> first_of_max_score ps winner.
Proof.
  destruct ps as [|p ps]; simpl; [discriminate|].
  intros [= <-].
  apply (max_from_spec ps [p] p 0%nat).
  - reflexivity.
  - intros [|j] q Hq; simpl in Hq; [|discriminate]. injection Hq as ->. lia.
  - intros j q _ Hlt. lia.
Qed.

(** ** The computer's strategy *)

(** C2. For every computer player with banked score [score self] and every
    turn total, [decide] answers bank (the string h) exactly when the turn
    total is at least [min(25, 100 - score)], and answers roll again (the
    string r) exactly when it is below. *)
Theorem decide_bank_iff (self : Player) (turn_total : Z) :
  (decide self turn_total = "h" <-> turn_total >= Z.min 25 (100 - score self)) /\
  (decide self turn_total = "r" <-> turn_total < Z.min 25 (100 - score self)).
Proof.
  unfold decide.
  destruct (Z.geb_spec turn_total (Z.min 25 (100 - score self))) as [Hge | Hlt].
  - split; split; intros H; try reflexivity; try lia; discriminate.
  - split; split; intros H; try reflexivity; try lia; discriminate.
Qed.

(** ** End of the game *)

(** C4. [is_game_over] is true exactly when some player of the game has a
    score of at least 100 (for the two players of a game: the first or the
    second), and false exactly when every player is below 100. *)
Theorem is_game_over_iff (g : PigGame) :
  (is_game_over g = true <-> exists p, p ∈ players g /\ score p >= 100) /\
  (is_game_over g = false <-> forall p, p ∈ players g -> score p < 100) /\
  (forall p1 p2, players g = [p1; p2] ->
     (is_game_over g = true <-> score p1 >= 100 \/ score p2 >= 100)).
Proof.
  assert (is_game_over g = true <-> exists p, p ∈ players g /\ score p >= 100) as Htrue.
  { unfold is_game_over. rewrite existsb_exists. split.
    - intros (p & Hin & Hp). exists p. split; [by apply list_elem_of_In|].
      apply Z.geb_le in Hp. lia.
    - intros (p & Hin & Hp). exists p. split; [by apply list_elem_of_In|].
      apply Z.geb_le. lia. }
  split; [exact Htrue | split].
  - split.
    + intros Hf p Hin. destruct (Z_lt_ge_dec (score p) 100) as [|Hge]; [assumption|].
      assert (is_game_over g = true) as Ht by (apply Htrue; eauto).
      congruence.
    + intros Hall. destruct (is_game_over g) eqn:Hg; [|reflexivity].
      destruct Htrue as [Htrue _].
      destruct (Htrue eq_refl) as (p & Hin & Hp). specialize (Hall p Hin). lia.
  - intros p1 p2 Hps. unfold is_game_over. rewrite Hps. simpl.
    rewrite orb_false_r, orb_true_iff, !Z.geb_le. lia.
Qed.

(** ** Construction of players and of the game *)

(** C8. [create_player] succeeds exactly on the types human and computer
    (giving a player of that class with score 0) and raises the
    unknown-player-type [ValueError] on every other type; [PigGame.__init__]
    builds a game exactly when both types are accepted, and otherwise the
    error leaves [main] with no game and a world it has not touched. *)
Theorem create_player_validates (player_type nm : string) :
  (create_player player_type nm =
     inl (ValueError "Unknown player type: must be 'human' or 'computer'")
   <-> player_type <> "human" /\ player_type <> "computer") /\
  (create_player player_type nm = inr (Player_init Human nm)
   <-> player_type = "human") /\
  (create_player player_type nm = inr (Player_init Computer nm)
   <-> player_type = "computer") /\
  (forall player2_type,
     (exists g, PigGame_init player_type player2_type = inr g)
     <-> (player_type = "human" \/ player_type = "computer") /\
         (player2_type = "human" \/ player2_type = "computer")) /\
  (forall player2_type timed w,
     ~ ((player_type = "human" \/ player_type = "computer") /\
        (player2_type = "human" \/ player2_type = "computer")) ->
     main player_type player2_type timed w =
       (Raise (ValueError "Unknown player type: must be 'human' or 'computer'"),
        None)).
Proof.
  assert (forall t n,
    (t = "human" /\ create_player t n = inr (Player_init Human n)) \/
    (t = "computer" /\ create_player t n = inr (Player_init Computer n)) \/
    (t <> "human" /\ t <> "computer" /\
     create_player t n =
       inl (ValueError "Unknown player type: must be 'human' or 'computer'")))
    as Hcases.
  { intros t n. unfold create_player.
    destruct (String.eqb_spec t "human") as [-> | Hh]; [left; auto | right].
    destruct (String.eqb_spec t "computer") as [-> | Hc]; [left; auto | right; auto]. }
  split; [|split; [|split; [|split]]].
  - split.
    + intros E. destruct (Hcases player_type nm) as [[_ Hc] | [[_ Hc] | (? & ? & _)]];
        [rewrite Hc in E; discriminate .. | auto].
    + intros [Hh Hc]. destruct (Hcases player_type nm) as [[? _] | [[? _] | (_ & _ & E)]];
        [congruence .. | exact E].
  - split.
    + intros E. destruct (Hcases player_type nm) as [[? Hc] | [[? Hc] | (? & ? & Hc)]];
        [assumption | rewrite Hc in E; discriminate ..].
    + intros ->. reflexivity.
  - split.
    + intros E. destruct (Hcases player_type nm) as [[? Hc] | [[? Hc] | (? & ? & Hc)]];
        [rewrite Hc in E; discriminate | assumption | rewrite Hc in E; discriminate].
    + intros ->. reflexivity.
  - intros player2_type. unfold PigGame_init. split.
    + intros [g Hg].
      destruct (Hcases player_type "Player 1") as [[? Hc] | [[? Hc] | (? & ? & Hc)]];
        rewrite Hc in Hg; try discriminate;
        (destruct (Hcases player2_type "Player 2") as [[? Hd] | [[? Hd] | (? & ? & Hd)]];
         rewrite Hd in Hg; try discriminate; auto).
    + intros [H1 H2].
      destruct (Hcases player_type "Player 1") as [[_ ->] | [[_ ->] | (? & ? & _)]];
        [| | destruct H1; congruence];
        (destruct (Hcases player2_type "Player 2") as [[_ ->] | [[_ ->] | (? & ? & _)]];
         [eauto | eauto | destruct H2; congruence]).
  - intros player2_type timed w Hbad. unfold main, PigGame_init.
    destruct (Hcases player_type "Player 1") as [[E1 ->] | [[E1 ->] | (? & ? & ->)]];
      try reflexivity;
      (destruct (Hcases player2_type "Player 2") as [[E2 ->] | [[E2 ->] | (? & ? & ->)]];
       try reflexivity; exfalso; apply Hbad; auto).
Qed.

(** ** Starting a new round *)

(** C9. [reset_game] puts every score at 0 and the current player index at
    0, keeps the players themselves (the same number of slots, each with its
    name and class: no player is constructed), and doing it twice gives the
    very state that doing it once gives. *)
Theorem reset_game_idempotent (g : PigGame) :
  Forall (fun p => score p = 0) (players (reset_game g)) /\
  current_player_index (reset_game g) = 0%nat /\
  players (reset_game g) = map reset_score (players g) /\
  length (players (reset_game g)) = length (players g) /\
  map name (players (reset_game g)) = map name (players g) /\
  map kind (players (reset_game g)) = map kind (players g) /\
  reset_game (reset_game g) = reset_game g.
Proof.
  unfold reset_game; simpl.
  repeat split.
  - apply List.Forall_forall. intros p Hp. apply in_map_iff in Hp as (q & <- & _). reflexivity.
  - apply length_map.
  - rewrite map_map. reflexivity.
  - rewrite map_map. reflexivity.
  - f_equal. rewrite map_map. apply map_ext. intros p. reflexivity.
Qed.

(** ** One round of a turn *)

Lemma turn_loop_unfold i t s :
  turn_loop i t s =
  (x ← turn_body i t; match x with
                      | inl t' => turn_loop i t'
                      | inr total => mret total
                      end) s.
Proof. apply (while_unfold (turn_body i)), turn_body_consuming. Qed.

Lemma deref_add_score i total g w p :
  players g !! i = Some p ->
  deref i (add_score i total g, w) =
    (Ret {| kind := kind p; name := name p; score := score p + total |},
     (add_score i total g, w)).
Proof.
  intros Hp. unfold deref, add_score. simpl.
  rewrite list_lookup_alter_eq, Hp. reflexivity.
Qed.

(** The round in which the die shows 1. *)
Lemma turn_body_one i t g w p rs :
  players g !! i = Some p -> rolls w = 1 :: rs ->
  turn_body i t (g, w) =
    (Ret (inr t),
     (g, advance w rs (inputs w) [ERolled (name p) 1; EScoresNothing (name p)])).
Proof.
  intros Hp Hr. destruct w as [rs0 ins0 ck0 out0]. simpl in Hr. subst rs0.
  unfold turn_body, Die_roll, deref, print, advance, mbind, M_bind, mret, M_ret.
  simpl. rewrite Hp. simpl. rewrite <- app_assoc. reflexivity.
Qed.

(** The round in which a human player is asked, by what the line read is
    after [strip] and [lower]. *)
Lemma turn_body_human i t g w p r rs line ins :
  players g !! i = Some p -> kind p = Human ->
  rolls w = r :: rs -> r <> 1 -> inputs w = line :: ins ->
  let decision := Text.lower (Text.strip line) in
  let shown := [ERolled (name p) r; ETurnTotal (t + r) p; EPrompt] in
  turn_body i t (g, w) =
    if is_quit decision then
      (Raise SystemExit, (g, advance w rs ins (shown ++ [EThanks])))
    else if String.eqb decision "h" then
      (Ret (inr (t + r)),
       (add_score i (t + r) g,
        advance w rs ins (shown ++ [EHolds (name p) (score p + (t + r))])))
    else (Ret (inl (t + r)), (g, advance w rs ins shown)).
Proof.
  intros Hp Hk Hr Hne Hin decision shown.
  destruct w as [rs0 ins0 ck0 out0]. simpl in Hr, Hin. subst rs0 ins0.
  unfold turn_body, get_decision, Die_roll, input, print, modify_game, raise,
    advance, mbind, M_bind, mret, M_ret.
  simpl. unfold deref at 1. simpl. rewrite Hp. simpl.
  destruct (Z.eqb_spec r 1) as [|_]; [contradiction|].
  rewrite Hk. simpl. fold decision.
  destruct (is_quit decision).
  - simpl. rewrite <- !app_assoc. reflexivity.
  - destruct (String.eqb decision "h").
    + simpl. rewrite (deref_add_score _ _ _ _ _ Hp). simpl.
      rewrite <- !app_assoc. reflexivity.
    + simpl. rewrite <- !app_assoc. reflexivity.
Qed.

(** The round in which a computer player decides. *)
Lemma turn_body_computer i t g w p r rs :
  players g !! i = Some p -> kind p = Computer ->
  rolls w = r :: rs -> r <> 1 ->
  let hold := String.eqb (decide p (t + r)) "h" in
  let shown := [ERolled (name p) r; ETurnTotal (t + r) p; EDecides (name p) hold] in
  turn_body i t (g, w) =
    if hold then
      (Ret (inr (t + r)),
       (add_score i (t + r) g,
        advance w rs (inputs w) (shown ++ [EHolds (name p) (score p + (t + r))])))
    else (Ret (inl (t + r)), (g, advance w rs (inputs w) shown)).
Proof.
  intros Hp Hk Hr Hne hold shown.
  destruct w as [rs0 ins0 ck0 out0]. simpl in Hr. subst rs0.
  unfold turn_body, get_decision, Die_roll, print, modify_game,
    advance, mbind, M_bind, mret, M_ret.
  simpl. unfold deref at 1. simpl. rewrite Hp. simpl.
  destruct (Z.eqb_spec r 1) as [|_]; [contradiction|].
  rewrite Hk. simpl. fold hold.
  destruct hold.
  - simpl. rewrite (deref_add_score _ _ _ _ _ Hp). simpl.
    rewrite <- !app_assoc. reflexivity.
  - simpl. rewrite <- !app_assoc. reflexivity.
Qed.

(** Every way one round of the loop of a turn can go. *)
Lemma turn_body_cases i t g w res g' w' :
  turn_body i t (g, w) = (res, (g', w')) ->
  (rolls w = [] /\ res = Starved /\ g' = g /\ w' = w) \/
  exists r rs, rolls w = r :: rs /\ rolls w' = rs /\
    ((players g !! i = None /\ res = Raise IndexError /\ g' = g /\ out w' = out w) \/
     exists p, players g !! i = Some p /\
       ((r = 1 /\ res = Ret (inr t) /\ g' = g /\ inputs w' = inputs w /\
         out w' = out w ++ [ERolled (name p) 1; EScoresNothing (name p)]) \/
        (r <> 1 /\ exists asked,
           (asked = EPrompt \/ exists b, asked = EDecides (name p) b) /\
           let shown := [ERolled (name p) r; ETurnTotal (t + r) p; asked] in
           ((res = Ret (inl (t + r)) /\ g' = g /\ out w' = out w ++ shown) \/
            (res = Ret (inr (t + r)) /\ g' = add_score i (t + r) g /\
             out w' = out w ++ shown ++ [EHolds (name p) (score p + (t + r))]) \/
            (res = Raise SystemExit /\ g' = g /\ kind p = Human /\
             out w' = out w ++ shown ++ [EThanks]) \/
            (res = Raise EOFError /\ g' = g /\ kind p = Human /\
             out w' = out w ++ shown))))).
Proof.
  intros H.
  destruct (rolls w) as [|r rs] eqn:Hr.
  - left. destruct w as [rs0 ins0 ck0 out0]. simpl in Hr. subst rs0.
    unfold turn_body, Die_roll, mbind, M_bind in H. simpl in H.
    inversion H. auto.
  - right. exists r, rs. split; [reflexivity|].
    destruct (players g !! i) as [p|] eqn:Hp.
    + destruct (Z.eq_dec r 1) as [-> | Hne].
      * rewrite (turn_body_one _ _ _ _ _ _ Hp Hr) in H. inversion H; subst.
        split; [reflexivity|]. right. exists p. split; [reflexivity|]. left.
        simpl. auto.
      * destruct (kind p) eqn:Hk.
        -- destruct (inputs w) as [|line ins] eqn:Hin.
           ++ destruct w as [rs0 ins0 ck0 out0]. simpl in Hr, Hin. subst rs0 ins0.
              unfold turn_body, get_decision, Die_roll, input, print,
                mbind, M_bind, mret, M_ret in H.
              simpl in H. unfold deref in H. simpl in H. rewrite Hp in H. simpl in H.
              destruct (Z.eqb_spec r 1) as [|_]; [contradiction|].
              rewrite Hk in H. simpl in H. inversion H; subst. simpl.
              split; [reflexivity|]. right. exists p. split; [reflexivity|]. right.
              split; [assumption|]. exists EPrompt. split; [auto|].
              right. right. right. rewrite <- !app_assoc. auto.
           ++ rewrite (turn_body_human _ _ _ _ _ _ _ _ _ Hp Hk Hr Hne Hin) in H.
              destruct (is_quit _); [|destruct (String.eqb _ "h")];
                inversion H; subst; simpl;
                (split; [reflexivity|]); right; exists p; (split; [reflexivity|]);
                right; (split; [assumption|]); exists EPrompt; (split; [auto|]);
                rewrite <- ?app_assoc; simpl; auto 10.
        -- rewrite (turn_body_computer _ _ _ _ _ _ _ Hp Hk Hr Hne) in H.
           destruct (String.eqb _ "h") eqn:Hd;
             inversion H; subst; simpl;
             (split; [reflexivity|]); right; exists p; (split; [reflexivity|]);
             right; (split; [assumption|]); eexists; (split; [right; eauto|]);
             rewrite <- ?app_assoc; simpl; rewrite ?Hd; auto 10.
    + destruct w as [rs0 ins0 ck0 out0]. simpl in Hr. subst rs0.
      unfold turn_body, Die_roll, mbind, M_bind in H. simpl in H.
      unfold deref in H. simpl in H. rewrite Hp in H. inversion H; subst. simpl.
      split; [reflexivity|]. left. auto.
Qed.

(** ** A whole turn *)

Lemma ongoing_app evs1 evs2 : ongoing evs1 -> ongoing evs2 -> ongoing (evs1 ++ evs2).
Proof.
  intros [H1 H1'] [H2 H2']. split.
  - intros n Hin. apply in_app_iff in Hin as [Hin | Hin]; [eapply H1 | eapply H2]; eauto.
  - intros n total Hin.
    apply in_app_iff in Hin as [Hin | Hin]; [eapply H1' | eapply H2']; eauto.
Qed.

Lemma ongoing_nil : ongoing [].
Proof. split; intros; intros []. Qed.

Lemma ongoing_shown n r t p asked :
  r <> 1 -> (asked = EPrompt \/ exists b, asked = EDecides n b) ->
  ongoing [ERolled n r; ETurnTotal t p; asked].
Proof.
  intros Hr Ha. split.
  - intros m Hin. simpl in Hin.
    destruct Hin as [E | [E | [E | []]]]; try discriminate.
    + injection E as _ E. contradiction.
    + destruct Ha as [-> | [b ->]]; discriminate.
  - intros m total Hin. simpl in Hin.
    destruct Hin as [E | [E | [E | []]]]; try discriminate.
    destruct Ha as [-> | [b ->]]; discriminate.
Qed.

Lemma ongoing_thanks : ongoing [EThanks].
Proof. split; intros ? **; simpl in *; intuition discriminate. Qed.

(** The loop of a turn, whatever the fuel: it ends in one of the three ways
    of [turn_end], and the die has only been consumed from the front. *)
Lemma loop_turn_end fuel i t0 g0 w0 res s' :
  loop_fuel (turn_body i) fuel t0 (g0, w0) = (res, s') ->
  turn_end i t0 g0 w0 res s' /\
  exists used, rolls w0 = used ++ rolls (snd s') /\
               ((forall total, res <> Ret total) \/ used <> []).
Proof.
  pose (I := fun (t : Z) (s : State) =>
    fst s = g0 /\
    (exists evs, out (snd s) = out w0 ++ evs /\ ongoing evs) /\
    (exists used, rolls w0 = used ++ rolls (snd s)) /\
    (Forall valid_roll (rolls w0) -> t0 <= t)).
  pose (Q := fun (res : result Z) (s' : State) =>
    turn_end i t0 g0 w0 res s' /\
    exists used, rolls w0 = used ++ rolls (snd s') /\
                 ((forall total, res <> Ret total) \/ used <> [])).
  intros Hrun.
  apply (loop_fuel_inv (turn_body i) I Q) with (fuel := fuel) (a := t0) (s := (g0, w0));
    [| | | exact Hrun].
  - intros t [g w] r1 [g1 w1] (Hg & (evs & Hout & Hon) & (used & Hused) & Ht) Hb.
    simpl in Hg, Hout, Hused. subst g.
    apply turn_body_cases in Hb
      as [(Hr & -> & -> & ->) | (r & rs & Hr & Hr1 & Hcase)].
    + split.
      * apply (turn_failed _ _ _ _ _ evs); [discriminate | assumption | assumption].
      * exists used. split; [assumption | left; discriminate].
    + assert (rolls w0 = (used ++ [r]) ++ rolls w1) as Hused1.
      { rewrite Hused, Hr, Hr1, <- app_assoc. reflexivity. }
      assert (used ++ [r] <> []) as Hne by (destruct used; discriminate).
      destruct Hcase as [(Hp & -> & -> & Ho) | (p & Hp & Hcase)].
      * split.
        -- apply (turn_failed _ _ _ _ _ evs); [discriminate | congruence | assumption].
        -- exists (used ++ [r]). split; [assumption | left; discriminate].
      * destruct Hcase as [(-> & -> & -> & Hi & Ho) | (Hr1' & asked & Hasked & Hcase)].
        -- split.
           ++ apply (turn_forfeited _ _ _ _ p evs); [assumption | | assumption].
              rewrite Ho, Hout, <- app_assoc. reflexivity.
           ++ exists (used ++ [1]). split; [assumption | right; assumption].
        -- assert (ongoing (evs ++ [ERolled (name p) r; ETurnTotal (t + r) p; asked]))
             as Hon1.
           { apply ongoing_app; [assumption | apply ongoing_shown; assumption]. }
           simpl in Hcase.
           destruct Hcase as [(-> & -> & Ho) | [(-> & -> & Ho) |
                              [(-> & -> & Hk & Ho) | (-> & -> & Hk & Ho)]]].
           ++ unfold I. simpl. repeat split.
              ** eexists. split; [|exact Hon1].
                 rewrite Ho, Hout, <- app_assoc. reflexivity.
              ** eauto.
              ** intros Hv. specialize (Ht Hv).
                 rewrite Hused, Hr in Hv. apply Forall_app in Hv as [_ Hv].
                 apply Forall_cons in Hv as [Hv _]. unfold valid_roll in Hv. lia.
           ++ split.
              ** apply (turn_banked _ _ _ _ p
                          (evs ++ [ERolled (name p) r; ETurnTotal (t + r) p; asked]));
                   [assumption | | assumption |].
                 --- rewrite Ho, Hout, <- !app_assoc. reflexivity.
                 --- intros Hv. specialize (Ht Hv).
                     rewrite Hused, Hr in Hv. apply Forall_app in Hv as [_ Hv].
                     apply Forall_cons in Hv as [Hv _]. unfold valid_roll in Hv. lia.
              ** exists (used ++ [r]). split; [assumption | right; assumption].
           ++ split.
              ** apply (turn_failed _ _ _ _ _
                   ((evs ++ [ERolled (name p) r; ETurnTotal (t + r) p; asked])
                    ++ [EThanks])); [discriminate | |].
                 --- rewrite Ho, Hout, <- !app_assoc. reflexivity.
                 --- apply ongoing_app; [assumption | apply ongoing_thanks].
              ** exists (used ++ [r]). split; [assumption | left; discriminate].
           ++ split.
              ** apply (turn_failed _ _ _ _ _
                   (evs ++ [ERolled (name p) r; ETurnTotal (t + r) p; asked]));
                   [discriminate | | assumption].
                 rewrite Ho, Hout, <- !app_assoc. reflexivity.
              ** exists (used ++ [r]). split; [assumption | left; discriminate].
  - intros t [g w] (Hg & (evs & Hout & Hon) & (used & Hused) & Ht).
    simpl in Hg, Hout, Hused. subst g. split.
    + apply (turn_failed _ _ _ _ _ evs); [discriminate | assumption | assumption].
    + exists used. split; [assumption | left; discriminate].
  - unfold I. simpl. repeat split.
    + exists []. split; [rewrite app_nil_r; reflexivity | apply ongoing_nil].
    + exists []. reflexivity.
    + lia.
Qed.

Lemma turn_end_length i t0 g0 w0 res s' :
  turn_end i t0 g0 w0 res s' -> length (players (fst s')) = length (players g0).
Proof. intros []; simpl; try reflexivity. apply length_alter. Qed.

Lemma turn_end_index i t0 g0 w0 res s' :
  turn_end i t0 g0 w0 res s' ->
  current_player_index (fst s') = current_player_index g0.
Proof. intros []; reflexivity. Qed.

(** [play_turn] in terms of the loop it runs. *)
Lemma play_turn_run g w res s' :
  play_turn (g, w) = (res, s') ->
  let i := current_player_index g in
  (players g !! i = None /\ res = Raise IndexError /\ s' = (g, w)) \/
  exists p r1 g1 w1,
    players g !! i = Some p /\
    loop_fuel (turn_body i) (S (length (rolls w))) 0 (g, w) = (r1, (g1, w1)) /\
    match r1 with
    | Ret _ =>
        res = Ret tt /\
        s' = ({| players := players g1;
                 current_player_index := (i + 1) mod length (players g) |}, w1)
    | Raise e => res = Raise e /\ s' = (g1, w1)
    | Starved => res = Starved /\ s' = (g1, w1)
    end.
Proof.
  intros H i. unfold play_turn in H. rewrite bind_run in H.
  unfold get_game at 1 in H. simpl in H. fold i in H.
  rewrite bind_run in H. unfold deref at 1 in H. simpl in H.
  destruct (players g !! i) as [p|] eqn:Hp.
  - right. rewrite bind_run in H. unfold turn_loop, while in H. cbn [snd fst] in H.
    destruct (loop_fuel (turn_body i) (S (length (rolls w))) 0 (g, w))
      as [r1 [g1 w1]] eqn:Hloop.
    exists p, r1, g1, w1. split; [reflexivity | split; [reflexivity|]].
    destruct r1 as [total | e |]; try (inversion H; auto; fail).
    pose proof (loop_turn_end _ _ _ _ _ _ _ Hloop) as [Hend _].
    pose proof (turn_end_index _ _ _ _ _ _ Hend) as Hidx.
    apply turn_end_length in Hend. simpl in Hend, Hidx.
    unfold switch_player in H. cbn [snd fst] in H. rewrite Hend, Hidx in H.
    apply lookup_lt_Some in Hp.
    destruct (length (players g)) as [|n] eqn:Hlen; [lia|].
    injection H as <- <-. auto.
  - left. inversion H. auto.
Qed.

Lemma play_turn_spec g w res s' :
  play_turn (g, w) = (res, s') ->
  play_turn_end g w res s' /\
  exists used, rolls w = used ++ rolls (snd s') /\ (res = Ret tt -> used <> []).
Proof.
  intros H. apply play_turn_run in H.
  destruct H as [(Hp & -> & ->) | (p & r1 & g1 & w1 & Hp & Hloop & H)].
  - split.
    + apply (played_fail _ _ _ []); [discriminate | | apply ongoing_nil].
      rewrite app_nil_r. reflexivity.
    + exists []. split; [reflexivity | discriminate].
  - apply loop_turn_end in Hloop as [Hend (used & Hused & Hne)].
    simpl in Hused.
    inversion Hend as [p' pre total w2 Hp' Hout Hon
                      | p' pre total w2 Hp' Hout Hon Htot
                      | res2 evs w2 Hres Hout Hon]; subst.
    + destruct H as [-> ->].
      assert (p' = p) as -> by congruence. split.
      * apply (played_forfeit _ _ p pre); assumption.
      * exists used. split; [assumption|]. intros _.
        destruct Hne as [Hne | Hne]; [exfalso; eapply Hne; reflexivity | assumption].
    + destruct H as [-> ->].
      assert (p' = p) as -> by congruence. split.
      * apply (played_bank _ _ p pre total); assumption.
      * exists used. split; [assumption|]. intros _.
        destruct Hne as [Hne | Hne]; [exfalso; eapply Hne; reflexivity | assumption].
    + destruct r1 as [total | e |]; [exfalso; eapply Hres; reflexivity | |];
        destruct H as [-> ->]; (split;
          [apply (played_fail _ _ _ evs); [discriminate | assumption | assumption]
          | exists used; split; [assumption | discriminate]]).
Qed.

Lemma turn_end_out i t0 g0 w0 res s' :
  turn_end i t0 g0 w0 res s' -> exists evs, out (snd s') = out w0 ++ evs.
Proof. intros []; simpl; eauto. Qed.

(** Whenever the loop of a turn is entered, the first thing it does is roll
    the die. *)
Lemma turn_loop_starts_with_roll i t g w p res g' w' :
  players g !! i = Some p ->
  turn_loop i t (g, w) = (res, (g', w')) ->
  match rolls w with
  | [] => res = Starved /\ g' = g /\ w' = w
  | r :: _ => exists evs, out w' = out w ++ ERolled (name p) r :: evs
  end.
Proof.
  intros Hp H. rewrite turn_loop_unfold, bind_run in H.
  destruct (turn_body i t (g, w)) as [r1 [g1 w1]] eqn:Hb.
  apply turn_body_cases in Hb
    as [(Hr & -> & -> & ->) | (r & rs & Hr & Hr1 & Hcase)].
  - rewrite Hr. inversion H; subst. auto.
  - rewrite Hr.
    destruct Hcase as [(Hnone & _) | (p' & Hp' & Hcase)]; [congruence|].
    assert (p' = p) as -> by congruence.
    destruct Hcase as [(-> & -> & -> & Hi & Ho) | (Hne & asked & Hasked & Hcase)].
    + inversion H; subst. rewrite Ho. eauto.
    + simpl in Hcase.
      destruct Hcase as [(-> & -> & Ho) | [(-> & -> & Ho) |
                         [(-> & -> & Hk & Ho) | (-> & -> & Hk & Ho)]]];
        try (inversion H; subst; rewrite Ho; simpl; eauto; fail).
      unfold turn_loop, while in H.
      apply loop_turn_end in H as [Hend _]. apply turn_end_out in Hend as [evs Hevs].
      simpl in Hevs. rewrite Hevs, Ho, <- app_assoc. simpl. eauto.
Qed.

Lemma is_quit_iff decision :
  is_quit decision = true <->
  decision = "q" \/ decision = "quit" \/ decision = "exit".
Proof.
  unfold is_quit. simpl. rewrite orb_false_r, !orb_true_iff, !String.eqb_eq. tauto.
Qed.

Lemma is_quit_false decision :
  decision <> "q" -> decision <> "quit" -> decision <> "exit" ->
  is_quit decision = false.
Proof.
  intros H1 H2 H3. destruct (is_quit decision) eqn:E; [|reflexivity].
  apply is_quit_iff in E. tauto.
Qed.

(** The round of a human player whose answer is neither a quit token nor
    the bank token: the loop goes on with the roll added. *)
Lemma human_round_continues i t g w p r rs line ins :
  players g !! i = Some p -> kind p = Human ->
  rolls w = r :: rs -> r <> 1 -> inputs w = line :: ins ->
  is_quit (Text.lower (Text.strip line)) = false ->
  String.eqb (Text.lower (Text.strip line)) "h" = false ->
  let shown := [ERolled (name p) r; ETurnTotal (t + r) p; EPrompt] in
  turn_body i t (g, w) = (Ret (inl (t + r)), (g, advance w rs ins shown)) /\
  turn_loop i t (g, w) = turn_loop i (t + r) (g, advance w rs ins shown).
Proof.
  intros Hp Hk Hr Hne Hin Hq Hh shown.
  pose proof (turn_body_human i t g w p r rs line ins Hp Hk Hr Hne Hin) as Hb.
  simpl in Hb. rewrite Hq, Hh in Hb.
  split; [exact Hb|].
  rewrite turn_loop_unfold, bind_run, Hb. reflexivity.
Qed.

(** ** What a human player types *)

(** C1, as the program has it. At every decision prompt of a human player,
    with the line read trimmed and lowercased: r or roll continues the turn
    with another roll; h banks the turn total and ends the turn; the word
    hold is not a bank token and continues the turn like r; q, quit or exit
    raises [SystemExit] on the spot, whatever was to follow is not run, and
    the game (every score) is as it was before the prompt. *)
Theorem human_decision_tokens i t g w p r rs line ins :
  players g !! i = Some p -> kind p = Human ->
  rolls w = r :: rs -> r <> 1 -> inputs w = line :: ins ->
  let decision := Text.lower (Text.strip line) in
  let shown := [ERolled (name p) r; ETurnTotal (t + r) p; EPrompt] in
  (decision = "r" \/ decision = "roll" \/ decision = "hold" ->
     turn_body i t (g, w) = (Ret (inl (t + r)), (g, advance w rs ins shown)) /\
     turn_loop i t (g, w) = turn_loop i (t + r) (g, advance w rs ins shown)) /\
  (decision = "h" ->
     let banked := shown ++ [EHolds (name p) (score p + (t + r))] in
     turn_loop i t (g, w) =
       (Ret (t + r), (add_score i (t + r) g, advance w rs ins banked)) /\
     players (add_score i (t + r) g) !! i =
       Some {| kind := kind p; name := name p; score := score p + (t + r) |} /\
     (forall j : nat, j <> i -> players (add_score i (t + r) g) !! j = players g !! j)) /\
  (decision = "q" \/ decision = "quit" \/ decision = "exit" ->
     forall (B : Type) (rest : Z -> M B),
       (total ← turn_loop i t; rest total) (g, w) =
         (Raise SystemExit, (g, advance w rs ins (shown ++ [EThanks])))).
Proof.
  intros Hp Hk Hr Hne Hin decision shown.
  pose proof (turn_body_human i t g w p r rs line ins Hp Hk Hr Hne Hin) as Hb.
  simpl in Hb. fold decision in Hb. fold shown in Hb.
  split; [|split].
  - intros Hd.
    apply (human_round_continues i t g w p r rs line ins); try assumption;
      fold decision; destruct Hd as [-> | [-> | ->]]; reflexivity.
  - intros Hd. rewrite Hd in Hb. simpl in Hb. split; [|split].
    + rewrite turn_loop_unfold, bind_run, Hb. reflexivity.
    + unfold add_score. simpl. rewrite list_lookup_alter_eq, Hp. reflexivity.
    + intros j Hj. unfold add_score. simpl. apply list_lookup_alter_ne. auto.
  - intros Hd B rest.
    assert (is_quit decision = true) as Hq by (apply is_quit_iff; exact Hd).
    rewrite Hq in Hb.
    rewrite bind_run, turn_loop_unfold, bind_run, Hb. reflexivity.
Qed.

(** C10. At a decision prompt of a human player, a line that after trimming
    and lowercasing is none of h, q, quit, exit makes the round end normally
    with the roll added and the game untouched, exactly as the line r would;
    the loop goes round again, and the next thing it does is roll the die
    (the next line on the console is that roll: no second prompt). *)
Theorem unrecognized_input_continues i t g w p r rs line ins :
  players g !! i = Some p -> kind p = Human ->
  rolls w = r :: rs -> r <> 1 -> inputs w = line :: ins ->
  let decision := Text.lower (Text.strip line) in
  let shown := [ERolled (name p) r; ETurnTotal (t + r) p; EPrompt] in
  decision <> "h" -> decision <> "q" -> decision <> "quit" -> decision <> "exit" ->
  turn_body i t (g, w) = (Ret (inl (t + r)), (g, advance w rs ins shown)) /\
  turn_loop i t (g, w) = turn_loop i (t + r) (g, advance w rs ins shown) /\
  turn_loop i t (g, w) =
    turn_loop i t (g, {| rolls := rolls w; inputs := "r" :: ins;
                         clock := clock w; out := out w |}) /\
  (forall res g' w',
     turn_loop i t (g, w) = (res, (g', w')) ->
     match rs with
     | [] => res = Starved /\ g' = g /\ w' = advance w [] ins shown
     | r2 :: _ => exists evs, out w' = out w ++ shown ++ ERolled (name p) r2 :: evs
     end).
Proof.
  intros Hp Hk Hr Hne Hin decision shown Hh Hq1 Hq2 Hq3.
  assert (is_quit decision = false) as Hq by (apply is_quit_false; assumption).
  assert (String.eqb decision "h" = false) as Hh' by (apply String.eqb_neq; assumption).
  destruct (human_round_continues i t g w p r rs line ins Hp Hk Hr Hne Hin Hq Hh')
    as [Hbody Hloop].
  split; [exact Hbody | split; [exact Hloop | split]].
  - rewrite Hloop. symmetry.
    destruct (human_round_continues i t g
                {| rolls := rolls w; inputs := "r" :: ins; clock := clock w; out := out w |}
                p r rs "r" ins Hp Hk Hr Hne eq_refl eq_refl eq_refl) as [_ Hloop_r].
    exact Hloop_r.
  - intros res g' w' Hrun. rewrite Hloop in Hrun.
    apply (turn_loop_starts_with_roll _ _ _ _ p) in Hrun; [|assumption].
    simpl in Hrun. destruct rs as [|r2 rs2]; [exact Hrun|].
    destruct Hrun as [evs Hevs]. exists evs. rewrite Hevs, <- app_assoc. reflexivity.
Qed.

(** ** Rolling a 1 *)



(** The word hold at the prompt: the human player has rolled a 3 and types
    hold; the program does not bank the 3 but rolls again, gets a 1, and the
    turn is lost with the score still 0. *)
Lemma hold_word_does_not_bank :
  let p1 := {| kind := Human; name := "Player 1"; score := 0 |} in
  let p2 := {| kind := Computer; name := "Player 2"; score := 0 |} in
  let g := {| players := [p1; p2]; current_player_index := 0 |} in
  let w := {| rolls := [3; 1]; inputs := ["hold"]; clock := []; out := [] |} in
  Text.lower (Text.strip "hold") = "hold" /\
  play_turn (g, w) =
    (Ret tt,
     ({| players := [p1; p2]; current_player_index := 1 |},
      {| rolls := []; inputs := []; clock := [];
         out := [ERolled "Player 1" 3; ETurnTotal 3 p1; EPrompt;
                 ERolled "Player 1" 1; EScoresNothing "Player 1"] |})) /\
  ~ (exists w',
       play_turn (g, w) =
         (Ret tt,
          ({| players := [{| kind := Human; name := "Player 1"; score := 3 |}; p2];
              current_player_index := 1 |}, w'))).
Proof.
  intros p1 p2 g w. split; [reflexivity | split; [reflexivity|]].
  intros [w' H]. vm_compute in H. discriminate H.
Qed.

Lemma human_decision_tokens_witness :
  let p1 := {| kind := Human; name := "Player 1"; score := 10 |} in
  let p2 := {| kind := Computer; name := "Player 2"; score := 0 |} in
  let g := {| players := [p1; p2]; current_player_index := 0 |} in
  let w := {| rolls := [5; 2]; inputs := ["  QuIt "; "h"]; clock := []; out := [] |} in
  (_ ← turn_loop 0 4; switch_player) (g, w) =
    (Raise SystemExit,
     (g, {| rolls := [2]; inputs := ["h"]; clock := [];
            out := [ERolled "Player 1" 5; ETurnTotal 9 p1; EPrompt; EThanks] |})).
Proof.
  intros p1 p2 g w.
  refine (proj2 (proj2 (human_decision_tokens 0%nat 4 g w p1 5 [2] "  QuIt " ["h"]
                          _ _ _ _ _)) _ unit (fun _ => switch_player)).
  - reflexivity.
  - reflexivity.
  - reflexivity.
  - lia.
  - reflexivity.
  - right. left. reflexivity.
Defined.

Lemma unrecognized_input_continues_witness :
  let p1 := {| kind := Human; name := "Player 1"; score := 10 |} in
  let p2 := {| kind := Computer; name := "Player 2"; score := 0 |} in
  let g := {| players := [p1; p2]; current_player_index := 0 |} in
  let w := {| rolls := [5; 2]; inputs := [" Hold"; "h"]; clock := []; out := [] |} in
  turn_body 0 4 (g, w) =
    (Ret (inl 9),
     (g, {| rolls := [2]; inputs := ["h"]; clock := [];
            out := [ERolled "Player 1" 5; ETurnTotal 9 p1; EPrompt] |})).
Proof.
  intros p1 p2 g w.
  refine (proj1 (unrecognized_input_continues 0%nat 4 g w p1 5 [2] " Hold" ["h"]
                   _ _ _ _ _ _ _ _ _)).
  - reflexivity.
  - reflexivity.
  - reflexivity.
  - lia.
  - reflexivity.
  - discriminate.
  - discriminate.
  - discriminate.
  - discriminate.
Defined.

(** ** The game loop *)

Lemma game_body_consuming : consuming game_body.
Proof.
  intros [] [g w] [] [g' w'] H. unfold game_body in H.
  rewrite bind_run in H. unfold get_game at 1 in H. cbn [fst snd] in H.
  destruct (is_game_over g); [discriminate|].
  rewrite bind_run in H.
  destruct (play_turn (g, w)) as [r1 s1] eqn:Hturn.
  destruct r1 as [[] | e |]; try discriminate.
  injection H as ->.
  apply play_turn_spec in Hturn as [_ (used & Hused & Hne)].
  simpl in *. rewrite Hused, length_app.
  destruct used; [exfalso; apply Hne; reflexivity | simpl; lia].
Qed.

(** The equation of [while not self.is_game_over(): self.play_turn()]. *)
Lemma game_loop_unfold g w :
  game_loop (g, w) =
  if is_game_over g then (Ret tt, (g, w))
  else (play_turn ;; game_loop) (g, w).
Proof.
  unfold game_loop at 1. rewrite (while_unfold game_body game_body_consuming).
  rewrite bind_run. unfold game_body at 1.
  rewrite bind_run. unfold get_game at 1. cbn [fst snd].
  destruct (is_game_over g); [reflexivity|].
  rewrite !bind_run.
  destruct (play_turn (g, w)) as [r1 s1].
  destruct r1 as [[] | e |]; reflexivity.
Qed.

(** C6. The loop of [play_game] does nothing at all once the game is over,
    and otherwise plays one turn and starts again; so when the turn just
    played has taken a score to 100 or more, the loop stops in the state
    that turn left: the die is not rolled again and the opponent, whose turn
    it would be, does not play. *)
Theorem game_loop_stops_when_over (g : PigGame) (w : World) :
  (is_game_over g = true -> game_loop (g, w) = (Ret tt, (g, w))) /\
  (is_game_over g = false -> game_loop (g, w) = (play_turn ;; game_loop) (g, w)) /\
  (forall g' w',
     is_game_over g = false ->
     play_turn (g, w) = (Ret tt, (g', w')) ->
     is_game_over g' = true ->
     game_loop (g, w) = (Ret tt, (g', w'))).
Proof.
  split; [|split].
  - intros Hover. rewrite game_loop_unfold, Hover. reflexivity.
  - intros Hover. rewrite game_loop_unfold, Hover. reflexivity.
  - intros g' w' Hover Hturn Hover'.
    rewrite game_loop_unfold, Hover, bind_run, Hturn.
    rewrite game_loop_unfold, Hover'. reflexivity.
Qed.

Lemma game_loop_stops_when_over_witness :
  let a := {| kind := Computer; name := "Player 1"; score := 95 |} in
  let b := {| kind := Human; name := "Player 2"; score := 99 |} in
  let g := {| players := [a; b]; current_player_index := 0 |} in
  let w := {| rolls := [6; 2; 3]; inputs := ["h"]; clock := []; out := [] |} in
  game_loop (g, w) =
    (Ret tt,
     ({| players := [{| kind := Computer; name := "Player 1"; score := 101 |}; b];
         current_player_index := 1 |},
      {| rolls := [2; 3]; inputs := ["h"]; clock := [];
         out := [ERolled "Player 1" 6; ETurnTotal 6 a; EDecides "Player 1" true;
                 EHolds "Player 1" 101] |})).
Proof.
  intros a b g w.
  apply (proj2 (proj2 (game_loop_stops_when_over g w))); reflexivity.
Defined.

(** ** Announcing the winner *)

Lemma print_run e g w :
  print e (g, w) = (Ret tt, (g, advance w (rolls w) (inputs w) [e])).
Proof. reflexivity. Qed.

Lemma for_each_print_players ps g w :
  for_each (fun player => print (EPlayerLine player)) ps (g, w) =
    (Ret tt, (g, advance w (rolls w) (inputs w) (map EPlayerLine ps))).
Proof.
  revert w. induction ps as [|p ps IH]; intros w.
  - simpl. unfold mret, M_ret, advance. rewrite app_nil_r. destruct w; reflexivity.
  - simpl. rewrite bind_run. unfold print at 1. cbn [fst snd].
    rewrite IH. unfold advance. simpl. rewrite <- app_assoc. reflexivity.
Qed.

Lemma announce_winner_run g w :
  announce_winner (g, w) =
  match max_by_score (players g) with
  | None => (Raise EmptyMaxError, (g, w))
  | Some winner =>
      (Ret tt,
       (g, advance w (rolls w) (inputs w)
             (EWins (name winner) (score winner) :: EFinalScores
              :: map EPlayerLine (players g))))
  end.
Proof.
  unfold announce_winner. rewrite bind_run. unfold get_game at 1. cbn [fst snd].
  destruct (max_by_score (players g)) as [winner|]; [|reflexivity].
  rewrite bind_run, print_run, bind_run, print_run, for_each_print_players.
  unfold advance. simpl. rewrite <- !app_assoc. reflexivity.
Qed.

Lemma announce_winner_reports s s' :
  announce_winner s = (Ret tt, s') -> reports_winner s'.
Proof.
  destruct s as [g w]. rewrite announce_winner_run.
  destruct (max_by_score (players g)) as [winner|] eqn:Hmax; [|discriminate].
  intros [= <-]. exists winner, (out w). split.
  - apply max_by_score_spec. exact Hmax.
  - reflexivity.
Qed.

Lemma bind_ret_inv {A B} (m : M A) (f : A -> M B) s b s' :
  (x ← m; f x) s = (Ret b, s') ->
  exists a s1, m s = (Ret a, s1) /\ f a s1 = (Ret b, s').
Proof.
  rewrite bind_run. destruct (m s) as [[a | e |] s1]; try discriminate. eauto.
Qed.

(** ** The timed game *)

Lemma timed_body_consuming self start_time : consuming (timed_body self start_time).
Proof.
  intros [] [g w] [] [g' w'] H. unfold timed_body in H.
  rewrite bind_run in H. unfold get_game at 1 in H. cbn [fst snd] in H.
  destruct (is_game_over g); [discriminate|].
  rewrite bind_run in H. unfold time_time at 1 in H. cbn [fst snd] in H.
  destruct (clock w) as [|c cs]; [discriminate|].
  destruct (PrimFloat.ltb _ _).
  - rewrite !bind_run in H.
    destruct (check_int _ _) as [[[] | e |] s1]; discriminate.
  - rewrite bind_run in H.
    match type of H with context [play_turn ?s] =>
      destruct (play_turn s) as [r1 s1] eqn:Hturn end.
    destruct r1 as [[] | e |]; try discriminate.
    injection H as ->.
    apply play_turn_spec in Hturn as [_ (used & Hused & Hne)].
    simpl in *. rewrite Hused, length_app.
    destruct used; [exfalso; apply Hne; reflexivity | simpl; lia].
Qed.

(** The equation of the loop of [TimedGameProxy.play_game]: the game-over
    test, then the clock, then the comparison, and only then a turn. *)
Lemma timed_loop_unfold self start_time g w :
  timed_loop self start_time (g, w) =
  if is_game_over g then (Ret tt, (g, w))
  else
    (current_time ← time_time;
     let elapsed_time := PrimFloat.sub current_time start_time in
     if PrimFloat.ltb (time_limit self) elapsed_time then
       check_int elapsed_time ;; print (ETimeUp elapsed_time)
     else play_turn ;; timed_loop self start_time) (g, w).
Proof.
  unfold timed_loop at 1.
  rewrite (while_unfold _ (timed_body_consuming self start_time)).
  rewrite bind_run. unfold timed_body at 1.
  rewrite bind_run. unfold get_game at 1. cbn [fst snd].
  destruct (is_game_over g); [reflexivity|].
  rewrite !bind_run.
  destruct (time_time (g, w)) as [[c | e |] s1]; try reflexivity.
  cbv zeta.
  destruct (PrimFloat.ltb _ _).
  - rewrite !bind_run.
    destruct (check_int _ s1) as [[[] | e |] s2]; reflexivity.
  - rewrite !bind_run.
    destruct (play_turn s1) as [[[] | e |] s2]; reflexivity.
Qed.

(** C5. At a check of the timed loop (the game not over, the clock read)
    where the elapsed time exceeds the limit, the loop is left without a
    turn: the die and the keyboard are untouched and the game is as it was
    (the time-up line is printed; converting an infinite elapsed time for
    that line raises [OverflowError]). And a game that runs to its end,
    untimed or timed, reports as winner the player [max] picks among the
    final scores: of maximal score, and the first of the list among equals.
    In particular a timed game whose time is up at the first check reports
    that winner from the scores as they stand, none of them at 100. The
    untimed game does report: called on a game that is over it returns at
    once with the welcome line, the winner line of [max]'s pick and the final
    scores; and whenever its loop has returned, [play_game] returns with the
    winner line of [max]'s pick among the scores the loop left. *)
Theorem time_up_stops_and_max_wins :
  (forall self start_time g w current_time cs,
     is_game_over g = false ->
     clock w = current_time :: cs ->
     let elapsed_time := PrimFloat.sub current_time start_time in
     PrimFloat.ltb (time_limit self) elapsed_time = true ->
     let w1 := {| rolls := rolls w; inputs := inputs w; clock := cs; out := out w |} in
     timed_loop self start_time (g, w) =
       if PrimFloat.is_infinity elapsed_time then (Raise OverflowError, (g, w1))
       else (Ret tt, (g, advance w1 (rolls w) (inputs w) [ETimeUp elapsed_time]))) /\
  (forall s s', play_game s = (Ret tt, s') -> reports_winner s') /\
  (forall self s s', timed_play_game self s = (Ret tt, s') -> reports_winner s') /\
  (forall self g w start_time current_time cs winner,
     clock w = start_time :: current_time :: cs ->
     is_game_over g = false ->
     let elapsed_time := PrimFloat.sub current_time start_time in
     PrimFloat.ltb (time_limit self) elapsed_time = true ->
     PrimFloat.is_infinity elapsed_time = false ->
     max_by_score (players g) = Some winner ->
     timed_play_game self (g, w) =
       (Ret tt,
        (g, {| rolls := rolls w; inputs := inputs w; clock := cs;
               out := out w ++ [EStartTimed; ETimeUp elapsed_time;
                                EWins (name winner) (score winner); EFinalScores]
                            ++ map EPlayerLine (players g) |}))) /\
  (forall g w winner,
     is_game_over g = true ->
     max_by_score (players g) = Some winner ->
     first_of_max_score (players g) winner /\
     play_game (g, w) =
       (Ret tt,
        (g, {| rolls := rolls w; inputs := inputs w; clock := clock w;
               out := out w ++ [EWelcome; EWins (name winner) (score winner);
                                EFinalScores]
                            ++ map EPlayerLine (players g) |}))) /\
  (forall g w g' w' winner,
     game_loop (g, advance w (rolls w) (inputs w) [EWelcome]) = (Ret tt, (g', w')) ->
     max_by_score (players g') = Some winner ->
     first_of_max_score (players g') winner /\
     play_game (g, w) =
       (Ret tt,
        (g', advance w' (rolls w') (inputs w')
               (EWins (name winner) (score winner) :: EFinalScores
                :: map EPlayerLine (players g'))))).
Proof.
  assert (forall self start_time g w current_time cs,
     is_game_over g = false ->
     clock w = current_time :: cs ->
     PrimFloat.ltb (time_limit self) (PrimFloat.sub current_time start_time) = true ->
     timed_loop self start_time (g, w) =
       if PrimFloat.is_infinity (PrimFloat.sub current_time start_time)
       then (Raise OverflowError,
             (g, {| rolls := rolls w; inputs := inputs w; clock := cs; out := out w |}))
       else (Ret tt,
             (g, advance {| rolls := rolls w; inputs := inputs w; clock := cs;
                            out := out w |}
                   (rolls w) (inputs w)
                   [ETimeUp (PrimFloat.sub current_time start_time)]))) as Hstop.
  { intros self start_time g w current_time cs Hover Hclock Hlt.
    rewrite timed_loop_unfold, Hover, bind_run.
    unfold time_time. cbn [fst snd]. rewrite Hclock. cbv zeta. rewrite Hlt.
    rewrite bind_run. unfold check_int.
    destruct (PrimFloat.is_infinity _); reflexivity. }
  split; [|split; [|split; [|split; [|split]]]].
  - intros self start_time g w current_time cs Hover Hclock elapsed_time Hlt w1.
    apply Hstop; assumption.
  - intros s s' Hrun. unfold play_game in Hrun.
    apply bind_ret_inv in Hrun as (? & s1 & _ & Hrun).
    apply bind_ret_inv in Hrun as (? & s2 & _ & Hrun).
    eapply announce_winner_reports; eauto.
  - intros self s s' Hrun. unfold timed_play_game in Hrun.
    apply bind_ret_inv in Hrun as (? & s1 & _ & Hrun).
    apply bind_ret_inv in Hrun as (? & s2 & _ & Hrun).
    apply bind_ret_inv in Hrun as (? & s3 & _ & Hrun).
    eapply announce_winner_reports; eauto.
  - intros self g w start_time current_time cs winner Hclock Hover elapsed_time
      Hlt Hfin Hmax.
    unfold timed_play_game. rewrite bind_run.
    unfold time_time at 1. cbn [fst snd]. rewrite Hclock.
    rewrite bind_run, print_run, bind_run.
    unfold advance. cbn [rolls inputs clock out].
    rewrite (Hstop self start_time g
               {| rolls := rolls w; inputs := inputs w; clock := current_time :: cs;
                  out := out w ++ [EStartTimed] |}
               current_time cs Hover eq_refl Hlt).
    fold elapsed_time. rewrite Hfin.
    rewrite announce_winner_run, Hmax.
    unfold advance. simpl. rewrite <- !app_assoc. reflexivity.
  - intros g w winner Hover Hmax.
    split; [apply max_by_score_spec; exact Hmax|].
    unfold play_game. rewrite bind_run, print_run, bind_run.
    rewrite game_loop_unfold, Hover.
    rewrite announce_winner_run, Hmax.
    unfold advance. simpl. rewrite <- !app_assoc. reflexivity.
  - intros g w g' w' winner Hloop Hmax.
    split; [apply max_by_score_spec; exact Hmax|].
    unfold play_game. rewrite bind_run, print_run, bind_run, Hloop.
    rewrite announce_winner_run, Hmax. reflexivity.
Qed.

Lemma time_up_stops_and_max_wins_witness :
  let a := {| kind := Computer; name := "Player 1"; score := 37 |} in
  let b := {| kind := Human; name := "Player 2"; score := 37 |} in
  let g := {| players := [a; b]; current_player_index := 1 |} in
  let w := {| rolls := [4; 1]; inputs := ["h"]; clock := [1000; 1061.5]%float;
              out := [] |} in
  let c := {| kind := Human; name := "Player 1"; score := 103 |} in
  let d := {| kind := Computer; name := "Player 2"; score := 103 |} in
  let over := {| players := [c; d]; current_player_index := 0 |} in
  let e := {| kind := Computer; name := "Player 1"; score := 98 |} in
  let f := {| kind := Computer; name := "Player 2"; score := 95 |} in
  let f' := {| kind := Computer; name := "Player 2"; score := 100 |} in
  let going := {| players := [e; f]; current_player_index := 0 |} in
  let v := {| rolls := [1; 5; 3]; inputs := []; clock := []; out := [] |} in
  timed_play_game (TimedGameProxy_init None) (g, w) =
    (Ret tt,
     (g, {| rolls := [4; 1]; inputs := ["h"]; clock := [];
            out := [EStartTimed; ETimeUp 61.5%float; EWins "Player 1" 37;
                    EFinalScores; EPlayerLine a; EPlayerLine b] |})) /\
  (first_of_max_score [c; d] c /\
   play_game (over, v) =
     (Ret tt,
      (over, {| rolls := [1; 5; 3]; inputs := []; clock := [];
                out := [EWelcome; EWins "Player 1" 103; EFinalScores;
                        EPlayerLine c; EPlayerLine d] |}))) /\
  (first_of_max_score [e; f'] f' /\
   play_game (going, v) =
     (Ret tt,
      ({| players := [e; f']; current_player_index := 0 |},
       {| rolls := [3]; inputs := []; clock := [];
          out := [EWelcome; ERolled "Player 1" 1; EScoresNothing "Player 1";
                  ERolled "Player 2" 5; ETurnTotal 5 f; EDecides "Player 2" true;
                  EHolds "Player 2" 100; EWins "Player 2" 100; EFinalScores;
                  EPlayerLine e; EPlayerLine f'] |}))).
Proof.
  intros a b g w c d over e f f' going v.
  split; [|split].
  - apply (proj1 (proj2 (proj2 (proj2 time_up_stops_and_max_wins)))
             (TimedGameProxy_init None) g w 1000%float 1061.5%float [] a);
      reflexivity.
  - apply (proj1 (proj2 (proj2 (proj2 (proj2 time_up_stops_and_max_wins))))
             over v c); reflexivity.
  - apply (proj2 (proj2 (proj2 (proj2 (proj2 time_up_stops_and_max_wins))))
             going v {| players := [e; f']; current_player_index := 0 |}
             {| rolls := [3]; inputs := []; clock := [];
                out := [EWelcome; ERolled "Player 1" 1; EScoresNothing "Player 1";
                        ERolled "Player 2" 5; ETurnTotal 5 f; EDecides "Player 2" true;
                        EHolds "Player 2" 100] |}
             f'); reflexivity.
Defined.

(** ** Scores *)

Lemma player_le_refl p : player_le p p.
Proof. unfold player_le. repeat split; lia. Qed.

Lemma scores_le_refl g : scores_le g g.
Proof. unfold scores_le. apply Forall2_same_length_lookup. split; [reflexivity|].
  intros j p q Hp Hq. assert (p = q) as -> by congruence. apply player_le_refl. Qed.

Lemma scores_le_trans g1 g2 g3 : scores_le g1 g2 -> scores_le g2 g3 -> scores_le g1 g3.
Proof.
  unfold scores_le. intros H12 H23.
  eapply Forall2_trans; [| exact H12 | exact H23].
  intros p q r (Hk1 & Hn1 & Hs1) (Hk2 & Hn2 & Hs2). unfold player_le.
  repeat split; [congruence | congruence | lia].
Qed.

Lemma scores_le_nonneg g g' : scores_le g g' -> scores_nonneg g -> scores_nonneg g'.
Proof.
  unfold scores_le, scores_nonneg. intros Hle. induction Hle as [|p q ps qs Hpq _ IH].
  - auto.
  - intros Hp. apply Forall_cons in Hp as [Hp Hps].
    apply Forall_cons. split; [destruct Hpq as (_ & _ & Hs); lia | auto].
Qed.

Lemma scores_le_add_score i total g :
  0 <= total -> scores_le g (add_score i total g).
Proof.
  intros Htotal. unfold scores_le, add_score. simpl.
  apply Forall2_same_length_lookup. split; [rewrite length_alter; reflexivity|].
  intros j p q Hp Hq. destruct (Nat.eq_dec i j) as [-> | Hij].
  - rewrite list_lookup_alter_eq, Hp in Hq. simpl in Hq. injection Hq as <-.
    unfold player_le. simpl. repeat split; lia.
  - rewrite list_lookup_alter_ne, Hp in Hq by assumption. injection Hq as <-.
    apply player_le_refl.
Qed.

Lemma keeps_scores_bind {A B} (m : M A) (f : A -> M B) :
  keeps_scores m -> (forall a, keeps_scores (f a)) -> keeps_scores (x ← m; f x).
Proof.
  intros Hm Hf s res s' Hv Hrun. rewrite bind_run in Hrun.
  destruct (m s) as [r1 s1] eqn:Hms.
  destruct (Hm s r1 s1 Hv Hms) as [Hv1 Hle1].
  destruct r1 as [a | e |]; try (injection Hrun as <- <-; auto; fail).
  destruct (Hf a s1 res s' Hv1 Hrun) as [Hv2 Hle2].
  split; [assumption | eapply scores_le_trans; eauto].
Qed.

Lemma keeps_scores_same {A} (m : M A) :
  (forall s res s', m s = (res, s') -> fst s' = fst s /\ rolls (snd s') = rolls (snd s)) ->
  keeps_scores m.
Proof.
  intros Hm s res s' Hv Hrun. destruct (Hm s res s' Hrun) as [Hg Hr].
  rewrite Hg, Hr. split; [assumption | apply scores_le_refl].
Qed.

Lemma keeps_scores_ret {A} (a : A) : keeps_scores (mret a).
Proof. apply keeps_scores_same. intros s res s' [= <- <-]. auto. Qed.

Lemma keeps_scores_print e : keeps_scores (print e).
Proof. apply keeps_scores_same. intros s res s' [= <- <-]. auto. Qed.

Lemma keeps_scores_time_time : keeps_scores time_time.
Proof.
  apply keeps_scores_same. intros [g w] res s'. unfold time_time. simpl.
  destruct (clock w); intros [= <- <-]; auto.
Qed.

Lemma keeps_scores_check_int x : keeps_scores (check_int x).
Proof.
  apply keeps_scores_same. intros s res s'. unfold check_int.
  destruct (PrimFloat.is_infinity x); intros [= <- <-]; auto.
Qed.

Lemma keeps_scores_announce_winner : keeps_scores announce_winner.
Proof.
  apply keeps_scores_same. intros [g w] res s'. rewrite announce_winner_run.
  destruct (max_by_score (players g)); intros [= <- <-]; auto.
Qed.

Lemma keeps_scores_loop {A B} (body : A -> M (A + B)) fuel a :
  (forall a, keeps_scores (body a)) -> keeps_scores (loop_fuel body fuel a).
Proof.
  intros Hbody. revert a. induction fuel as [|n IH]; intros a.
  - apply keeps_scores_same. intros s res s' [= <- <-]. auto.
  - simpl. apply keeps_scores_bind; [apply Hbody|].
    intros [a' | b]; [apply IH | apply keeps_scores_ret].
Qed.

Lemma keeps_scores_while {A B} (body : A -> M (A + B)) a :
  (forall a, keeps_scores (body a)) -> keeps_scores (while body a).
Proof.
  intros Hbody s res s' Hv Hrun. unfold while in Hrun.
  eapply (keeps_scores_loop body _ a Hbody); eauto.
Qed.

Lemma keeps_scores_play_turn : keeps_scores play_turn.
Proof.
  intros [g w] res [g' w'] Hv Hrun.
  apply play_turn_spec in Hrun as [Hend (used & Hused & _)].
  simpl in *. split.
  - rewrite Hused in Hv. apply Forall_app in Hv as [_ Hv]. exact Hv.
  - inversion Hend as [p pre w2 Hp Ho Hon
                      | p pre total w2 Hp Ho Hon Htot
                      | res2 evs2 w2 Hres Ho Hon]; subst.
    + exact (scores_le_refl g).
    + specialize (Htot Hv).
      exact (scores_le_add_score (current_player_index g) total g ltac:(lia)).
    + apply scores_le_refl.
Qed.

Lemma keeps_scores_get_game {B} (f : PigGame -> M B) :
  (forall g, keeps_scores (f g)) -> keeps_scores (g ← get_game; f g).
Proof.
  intros Hf. apply keeps_scores_bind; [|exact Hf].
  apply keeps_scores_same. intros s res s' H. inversion H. auto.
Qed.

Lemma keeps_scores_play_game : keeps_scores play_game.
Proof.
  unfold play_game.
  apply keeps_scores_bind; [apply keeps_scores_print | intros _].
  apply keeps_scores_bind; [| intros _; apply keeps_scores_announce_winner].
  apply keeps_scores_while. intros []. unfold game_body.
  apply keeps_scores_get_game. intros g.
  destruct (is_game_over g); [apply keeps_scores_ret|].
  apply keeps_scores_bind; [apply keeps_scores_play_turn | intros _; apply keeps_scores_ret].
Qed.

Lemma keeps_scores_timed_play_game self : keeps_scores (timed_play_game self).
Proof.
  unfold timed_play_game.
  apply keeps_scores_bind; [apply keeps_scores_time_time | intros start_time].
  apply keeps_scores_bind; [apply keeps_scores_print | intros _].
  apply keeps_scores_bind; [| intros _; apply keeps_scores_announce_winner].
  apply keeps_scores_while. intros []. unfold timed_body.
  apply keeps_scores_get_game. intros g.
  destruct (is_game_over g); [apply keeps_scores_ret|].
  apply keeps_scores_bind; [apply keeps_scores_time_time | intros current_time].
  cbv zeta. destruct (PrimFloat.ltb _ _).
  - apply keeps_scores_bind; [apply keeps_scores_check_int | intros _].
    apply keeps_scores_bind; [apply keeps_scores_print | intros _; apply keeps_scores_ret].
  - apply keeps_scores_bind; [apply keeps_scores_play_turn | intros _; apply keeps_scores_ret].
Qed.

(** C7. A player is created with score 0, and a new game has every score at
    0. [reset_score] puts the score at exactly 0 and touches nothing else.
    With the die showing faces 1 to 6, a call of [play_turn], however it
    ends, leaves no score lower than it was (so non-negative scores stay
    non-negative), leaves every player but the current one exactly as they
    were, and changes the current player's score only when the turn ends
    normally with that player banking a turn total of at least 2 as its last
    act. The same holds across the turns of a whole game, timed or not. *)
Theorem score_invariants :
  (forall k nm, score (Player_init k nm) = 0) /\
  (forall t1 t2 g, PigGame_init t1 t2 = inr g ->
     Forall (fun p => score p = 0) (players g) /\ scores_nonneg g) /\
  (forall p, score (reset_score p) = 0 /\
             kind (reset_score p) = kind p /\ name (reset_score p) = name p) /\
  (forall g w res g' w',
     Forall valid_roll (rolls w) ->
     play_turn (g, w) = (res, (g', w')) ->
     scores_le g g' /\
     (scores_nonneg g -> scores_nonneg g') /\
     (forall j : nat, j <> current_player_index g -> players g' !! j = players g !! j) /\
     (players g' <> players g ->
      res = Ret tt /\
      exists p pre total,
        players g !! current_player_index g = Some p /\
        2 <= total /\
        players g' !! current_player_index g =
          Some {| kind := kind p; name := name p; score := score p + total |} /\
        out w' = out w ++ pre ++ [EHolds (name p) (score p + total)] /\
        ongoing pre)) /\
  (forall g w res g' w',
     Forall valid_roll (rolls w) ->
     play_game (g, w) = (res, (g', w')) ->
     scores_le g g' /\ (scores_nonneg g -> scores_nonneg g')) /\
  (forall self g w res g' w',
     Forall valid_roll (rolls w) ->
     timed_play_game self (g, w) = (res, (g', w')) ->
     scores_le g g' /\ (scores_nonneg g -> scores_nonneg g')).
Proof.
  split; [reflexivity|].
  split.
  { intros t1 t2 g Hinit. unfold PigGame_init, create_player in Hinit.
    assert (Forall (fun p => score p = 0) (players g)) as Hzero.
    { destruct (String.eqb t1 "human"), (String.eqb t1 "computer"),
        (String.eqb t2 "human"), (String.eqb t2 "computer");
        try discriminate; injection Hinit as <-; simpl;
        repeat constructor. }
    split; [exact Hzero|].
    unfold scores_nonneg. eapply Forall_impl; [exact Hzero|].
    simpl. intros p ->. lia. }
  split; [intros p; repeat split|].
  split.
  { intros g w res g' w' Hv Hrun.
    pose proof (keeps_scores_play_turn (g, w) res (g', w') Hv Hrun) as [_ Hle].
    simpl in Hle.
    split; [exact Hle|]. split; [apply scores_le_nonneg; exact Hle|].
    apply play_turn_spec in Hrun as [Hend _].
    inversion Hend as [p pre w2 Hp Ho Hon
                      | p pre total w2 Hp Ho Hon Htot
                      | res2 evs2 w2 Hres Ho Hon]; subst.
    - split; [reflexivity|]. intros Hne. exfalso. apply Hne. reflexivity.
    - split.
      + intros j Hj. simpl. apply list_lookup_alter_ne. auto.
      + intros _. split; [reflexivity|]. exists p, pre, total.
        split; [exact Hp|]. split; [auto|]. split; [|auto].
        simpl. rewrite list_lookup_alter_eq, Hp. reflexivity.
    - split; [reflexivity|]. intros Hne. exfalso. apply Hne. reflexivity. }
  split.
  - intros g w res g' w' Hv Hrun.
    pose proof (keeps_scores_play_game (g, w) res (g', w') Hv Hrun) as [_ Hle].
    split; [exact Hle | apply scores_le_nonneg; exact Hle].
  - intros self g w res g' w' Hv Hrun.
    pose proof (keeps_scores_timed_play_game self (g, w) res (g', w') Hv Hrun) as [_ Hle].
    split; [exact Hle | apply scores_le_nonneg; exact Hle].
Qed.

Lemma score_invariants_witness :
  let a := {| kind := Computer; name := "Player 1"; score := 90 |} in
  let b := {| kind := Human; name := "Player 2"; score := 30 |} in
  let g := {| players := [a; b]; current_player_index := 0 |} in
  let g' := {| players := [{| kind := Computer; name := "Player 1"; score := 101 |}; b];
               current_player_index := 1 |} in
  let w := {| rolls := [5; 6; 1]; inputs := []; clock := []; out := [] |} in
  let w' := {| rolls := [1]; inputs := []; clock := [];
               out := [ERolled "Player 1" 5; ETurnTotal 5 a; EDecides "Player 1" false;
                       ERolled "Player 1" 6; ETurnTotal 11 a; EDecides "Player 1" true;
                       EHolds "Player 1" 101] |} in
  scores_le g g' /\
  (scores_nonneg g -> scores_nonneg g') /\
  (forall j : nat, j <> current_player_index g -> players g' !! j = players g !! j) /\
  (players g' <> players g ->
   Ret tt = Ret tt /\
   exists p pre total,
     players g !! current_player_index g = Some p /\
     2 <= total /\
     players g' !! current_player_index g =
       Some {| kind := kind p; name := name p; score := score p + total |} /\
     out w' = out w ++ pre ++ [EHolds (name p) (score p + total)] /\
     ongoing pre).
Proof.
  intros a b g g' w w'.
  apply (proj1 (proj2 (proj2 (proj2 score_invariants))) g w (Ret tt) g' w').
  - repeat constructor; unfold valid_roll; lia.
  - reflexivity.
Defined.

(** ** Passing the turn *)

(** X1. [switch_player] fails with [ZeroDivisionError] on a game without
    players and otherwise returns with the players untouched and an index
    that points into the list; with two players, switching twice from a
    well-formed game gives the game back. *)
Theorem switch_player_cycles (g : PigGame) (w : World) :
  (players g = [] -> switch_player (g, w) = (Raise ZeroDivisionError, (g, w))) /\
  (players g <> [] ->
     switch_player (g, w) = (Ret tt, (pass_turn g (players g), w)) /\
     well_formed (pass_turn g (players g))) /\
  (length (players g) = 2%nat -> well_formed g ->
     (switch_player ;; switch_player) (g, w) = (Ret tt, (g, w))).
Proof.
  split; [|split].
  - intros Hnil. unfold switch_player. simpl. rewrite Hnil. reflexivity.
  - intros Hne. unfold switch_player, pass_turn, well_formed. cbn [fst snd].
    destruct (players g) as [|p ps] eqn:Hps; [congruence|].
    split; [reflexivity|].
    cbn [players current_player_index]. apply Nat.mod_upper_bound. simpl. lia.
  - intros Hlen Hwf. unfold well_formed in Hwf. rewrite Hlen in Hwf.
    destruct g as [ps i]. simpl in *.
    rewrite bind_run. unfold switch_player. cbn [fst snd players current_player_index].
    rewrite Hlen. cbn [fst snd players current_player_index]. rewrite Hlen.
    destruct i as [|[|i]]; [reflexivity | reflexivity | lia].
Qed.

(** ** The shape of the game through a turn *)

Lemma map_alter_same {A B} (h : A -> B) (f : A -> A) (i : nat) (l : list A) :
  (forall x, h (f x) = h x) -> map h (alter f i l) = map h l.
Proof.
  intros Hf. revert i. induction l as [|x l IH]; intros [|i]; simpl; try reflexivity.
  - rewrite Hf. reflexivity.
  - f_equal. apply IH.
Qed.

Lemma same_players_refl g : same_players g g.
Proof. split; reflexivity. Qed.

Lemma same_players_trans g1 g2 g3 :
  same_players g1 g2 -> same_players g2 g3 -> same_players g1 g3.
Proof. intros [H1 H2] [H3 H4]. split; congruence. Qed.

Lemma same_players_length g g' :
  same_players g g' -> length (players g') = length (players g).
Proof. intros [H _]. apply (f_equal length) in H. rewrite !length_map in H. exact H. Qed.

Lemma add_score_same_players i total g : same_players g (add_score i total g).
Proof.
  unfold same_players, add_score. simpl.
  split; apply map_alter_same; reflexivity.
Qed.

Lemma pass_turn_well_formed g ps :
  well_formed g -> length ps = length (players g) -> well_formed (pass_turn g ps).
Proof.
  unfold well_formed, pass_turn. simpl. intros Hwf ->.
  apply Nat.mod_upper_bound. lia.
Qed.

Lemma play_turn_keeps_shape g w res g' w' :
  play_turn (g, w) = (res, (g', w')) ->
  same_players g g' /\ (well_formed g -> well_formed g').
Proof.
  intros Hrun. apply play_turn_spec in Hrun as [Hend _].
  inversion Hend as [p pre w2 Hp Ho Hon
                    | p pre total w2 Hp Ho Hon Htot
                    | res2 evs2 w2 Hres Ho Hon]; subst.
  - split; [exact (same_players_refl g)|].
    intros Hwf. apply pass_turn_well_formed; auto.
  - split; [exact (add_score_same_players (current_player_index g) total g)|].
    intros Hwf. apply pass_turn_well_formed; [assumption|].
    simpl. apply length_alter.
  - split; [apply same_players_refl | auto].
Qed.

(** X2. Whatever way a call of [play_turn] ends, the game holds the same
    players (as many, same names and classes). When it ends by an exception
    the game is exactly as it was: nothing is banked and the turn is not
    passed. When it returns, the index pointed into the list before and does
    so after, and has moved on by one modulo the number of players. When the
    index does not point into the list the call raises [IndexError] before
    rolling, reading or printing anything. *)
Theorem play_turn_frame g w res g' w' :
  play_turn (g, w) = (res, (g', w')) ->
  same_players g g' /\
  (res <> Ret tt -> g' = g) /\
  (res = Ret tt ->
     well_formed g /\ well_formed g' /\
     current_player_index g' =
       ((current_player_index g + 1) mod length (players g))%nat) /\
  (~ well_formed g -> res = Raise IndexError /\ w' = w).
Proof.
  intros Hrun.
  pose proof (play_turn_keeps_shape _ _ _ _ _ Hrun) as [Hsame Hwf].
  split; [exact Hsame|].
  pose proof Hrun as Hrun2.
  apply play_turn_spec in Hrun as [Hend _].
  split; [|split].
  - intros Hres.
    inversion Hend; subst; try (exfalso; apply Hres; reflexivity). reflexivity.
  - intros ->.
    assert (well_formed g) as Hg.
    { inversion Hend as [p pre w2 Hp Ho Hon
                        | p pre total w2 Hp Ho Hon Htot
                        | res2 evs2 w2 Hres Ho Hon]; subst;
        try (eapply lookup_lt_Some; exact Hp).
      exfalso. apply Hres. reflexivity. }
    split; [exact Hg | split; [auto|]].
    inversion Hend as [p pre w2 Hp Ho Hon
                      | p pre total w2 Hp Ho Hon Htot
                      | res2 evs2 w2 Hres Ho Hon]; subst; try reflexivity.
    exfalso. apply Hres. reflexivity.
  - intros Hnwf. apply play_turn_run in Hrun2.
    destruct Hrun2 as [(_ & -> & Hs) | (p & r1 & g1 & w1 & Hp & _)].
    + injection Hs as -> ->. auto.
    + exfalso. apply Hnwf. eapply lookup_lt_Some. exact Hp.
Qed.

Lemma play_turn_frame_witness :
  let a := {| kind := Human; name := "Player 1"; score := 7 |} in
  let b := {| kind := Computer; name := "Player 2"; score := 30 |} in
  let g := {| players := [a; b]; current_player_index := 0 |} in
  let w := {| rolls := [5; 3]; inputs := ["r"; "exit"]; clock := []; out := [] |} in
  let w' := {| rolls := []; inputs := []; clock := [];
               out := [ERolled "Player 1" 5; ETurnTotal 5 a; EPrompt;
                       ERolled "Player 1" 3; ETurnTotal 8 a; EPrompt; EThanks] |} in
  same_players g g /\
  (Raise SystemExit <> Ret tt -> g = g) /\
  (Raise SystemExit = Ret tt ->
     well_formed g /\ well_formed g /\
     current_player_index g =
       ((current_player_index g + 1) mod length (players g))%nat) /\
  (~ well_formed g -> @Raise unit SystemExit = Raise IndexError /\ w' = w).
Proof.
  intros a b g w w'.
  apply (play_turn_frame g w (Raise SystemExit) g w'). reflexivity.
Defined.

(** ** What a game never raises *)

Lemma turn_loop_plain fuel i t g w p res s' :
  players g !! i = Some p ->
  loop_fuel (turn_body i) fuel t (g, w) = (res, s') ->
  plain_end res.
Proof.
  intros Hp Hrun.
  apply (loop_fuel_inv (turn_body i) (fun _ s => fst s = g) (fun res _ => plain_end res))
    with (fuel := fuel) (a := t) (s := (g, w)) (s' := s'); [| | reflexivity | exact Hrun].
  - intros t1 [g1 w1] r1 [g2 w2] Hg Hb. simpl in Hg. subst g1.
    apply turn_body_cases in Hb
      as [(_ & -> & _) | (r & rs & _ & _ & Hcase)]; [exact I|].
    destruct Hcase as [(Hnone & _) | (p' & _ & Hcase)]; [congruence|].
    destruct Hcase as [(_ & -> & _) | (_ & asked & _ & Hcase)]; [exact I|].
    simpl in Hcase.
    destruct Hcase as [(-> & -> & _) | [(-> & _) | [(-> & _) | (-> & _)]]];
      simpl; auto.
  - intros; exact I.
Qed.

Lemma play_turn_plain g w res s' :
  well_formed g -> play_turn (g, w) = (res, s') -> plain_end res.
Proof.
  intros Hwf Hrun. apply play_turn_run in Hrun.
  destruct Hrun as [(Hnone & _) | (p & r1 & g1 & w1 & Hp & Hloop & Hres)].
  - apply lookup_ge_None in Hnone. unfold well_formed in Hwf. lia.
  - apply (turn_loop_plain _ _ _ _ _ p) in Hloop; [|exact Hp].
    destruct r1 as [total | e |]; destruct Hres as [-> _]; exact Hloop.
Qed.

Lemma game_loop_shape g w res s' :
  well_formed g ->
  game_loop (g, w) = (res, s') ->
  plain_end res /\ well_formed (fst s') /\ same_players g (fst s').
Proof.
  intros Hwf Hrun. unfold game_loop, while in Hrun.
  apply (loop_fuel_inv game_body
           (fun _ s => well_formed (fst s) /\ same_players g (fst s))
           (fun res s => plain_end res /\ well_formed (fst s) /\ same_players g (fst s)))
    with (fuel := S (length (rolls (snd (g, w))))) (a := tt) (s := (g, w));
    [| | split; [exact Hwf | apply same_players_refl] | exact Hrun].
  - intros [] [g1 w1] r1 [g2 w2] [Hwf1 Hs1] Hb. simpl in Hwf1, Hs1.
    unfold game_body in Hb. rewrite bind_run in Hb.
    unfold get_game at 1 in Hb. cbn [fst snd] in Hb.
    destruct (is_game_over g1).
    + injection Hb as <- <- <-. simpl. auto.
    + rewrite bind_run in Hb.
      destruct (play_turn (g1, w1)) as [r2 [g3 w3]] eqn:Hturn.
      pose proof (play_turn_plain _ _ _ _ Hwf1 Hturn) as Hplain.
      apply play_turn_keeps_shape in Hturn as [Hsame Hwf3].
      destruct r2 as [[] | e |]; injection Hb as <- <- <-; simpl;
        eauto using same_players_trans.
  - intros [] s [Hwf1 Hs1]. simpl. auto.
Qed.

Lemma timed_loop_shape self start_time g w res s' :
  well_formed g ->
  timed_loop self start_time (g, w) = (res, s') ->
  (plain_end res \/ res = Raise OverflowError) /\
  well_formed (fst s') /\ same_players g (fst s').
Proof.
  intros Hwf Hrun. unfold timed_loop, while in Hrun.
  apply (loop_fuel_inv (timed_body self start_time)
           (fun _ s => well_formed (fst s) /\ same_players g (fst s))
           (fun res s => (plain_end res \/ res = Raise OverflowError) /\
                         well_formed (fst s) /\ same_players g (fst s)))
    with (fuel := S (length (rolls (snd (g, w))))) (a := tt) (s := (g, w));
    [| | split; [exact Hwf | apply same_players_refl] | exact Hrun].
  - intros [] [g1 w1] r1 [g2 w2] [Hwf1 Hs1] Hb. simpl in Hwf1, Hs1.
    unfold timed_body in Hb. rewrite bind_run in Hb.
    unfold get_game at 1 in Hb. cbn [fst snd] in Hb.
    destruct (is_game_over g1).
    + injection Hb as <- <- <-. simpl. auto.
    + rewrite bind_run in Hb. unfold time_time at 1 in Hb. cbn [fst snd] in Hb.
      destruct (clock w1) as [|c cs].
      * injection Hb as <- <- <-. simpl. auto.
      * destruct (PrimFloat.ltb _ _).
        -- rewrite bind_run in Hb. unfold check_int in Hb.
           destruct (PrimFloat.is_infinity _);
             injection Hb as <- <- <-; simpl; auto.
        -- rewrite bind_run in Hb.
           match type of Hb with context [play_turn ?s] =>
             destruct (play_turn s) as [r2 [g3 w3]] eqn:Hturn end.
           pose proof (play_turn_plain _ _ _ _ Hwf1 Hturn) as Hplain.
           apply play_turn_keeps_shape in Hturn as [Hsame Hwf3].
           destruct r2 as [[] | e |]; injection Hb as <- <- <-;
             [ split; [auto | eapply same_players_trans; eauto]
             | split; [left; exact Hplain
                      | split; [auto | eapply same_players_trans; eauto]] .. ].
  - intros [] s [Hwf1 Hs1]. simpl. auto.
Qed.

Lemma announce_winner_plain g w res s' :
  well_formed g ->
  announce_winner (g, w) = (res, s') -> res = Ret tt /\ fst s' = g.
Proof.
  intros Hwf. rewrite announce_winner_run. unfold well_formed in Hwf.
  destruct (players g) as [|p ps] eqn:Hps; [simpl in Hwf; lia|].
  simpl. intros [= <- <-]. auto.
Qed.

Lemma play_game_shape g w res s' :
  well_formed g ->
  play_game (g, w) = (res, s') ->
  plain_end res /\ well_formed (fst s') /\ same_players g (fst s').
Proof.
  intros Hwf Hrun. unfold play_game in Hrun.
  rewrite bind_run, print_run, bind_run in Hrun.
  match type of Hrun with context [game_loop ?s] =>
    destruct (game_loop s) as [r1 [g1 w1]] eqn:Hloop end.
  apply game_loop_shape in Hloop as (Hplain & Hwf1 & Hsame); [|exact Hwf].
  simpl in Hwf1, Hsame.
  destruct r1 as [[] | e |]; try (injection Hrun as <- <-; auto; fail).
  apply announce_winner_plain in Hrun as [-> Hg]; [|exact Hwf1].
  rewrite Hg. simpl. auto.
Qed.

Lemma timed_play_game_shape self g w res s' :
  well_formed g ->
  timed_play_game self (g, w) = (res, s') ->
  (plain_end res \/ res = Raise OverflowError) /\
  well_formed (fst s') /\ same_players g (fst s').
Proof.
  intros Hwf Hrun. unfold timed_play_game in Hrun.
  rewrite bind_run in Hrun. unfold time_time at 1 in Hrun. cbn [fst snd] in Hrun.
  destruct (clock w) as [|start_time cs].
  { injection Hrun as <- <-. simpl. auto using same_players_refl. }
  rewrite bind_run, print_run, bind_run in Hrun.
  match type of Hrun with context [timed_loop _ _ ?s] =>
    destruct (timed_loop self start_time s) as [r1 [g1 w1]] eqn:Hloop end.
  apply timed_loop_shape in Hloop as (Hplain & Hwf1 & Hsame); [|exact Hwf].
  simpl in Hwf1, Hsame.
  destruct r1 as [[] | e |]; try (injection Hrun as <- <-; auto; fail).
  apply announce_winner_plain in Hrun as [-> Hg]; [|exact Hwf1].
  rewrite Hg. simpl. auto.
Qed.

Lemma PigGame_init_shape t1 t2 g :
  PigGame_init t1 t2 = inr g ->
  well_formed g /\ length (players g) = 2%nat /\
  current_player_index g = 0%nat /\
  map name (players g) = ["Player 1"; "Player 2"] /\
  Forall (fun p => score p = 0) (players g).
Proof.
  unfold PigGame_init, create_player, well_formed. intros Hinit.
  destruct (String.eqb t1 "human"), (String.eqb t1 "computer"),
    (String.eqb t2 "human"), (String.eqb t2 "computer");
    try discriminate; injection Hinit as <-; simpl;
    (split; [lia|]); repeat split; repeat constructor.
Qed.

(** X3. A game that starts with its index pointing into the list of players
    never raises [IndexError], [ZeroDivisionError] or the [ValueError] of
    [max]: [play_game] ends normally, by [SystemExit] (the player quits) or
    by [EOFError] (the input ends), and the timed game can besides only end
    by the [OverflowError] of the time-up line. Whatever the end, the game
    still holds the same players and a valid index. For [main] this covers
    every run: either the construction fails with the unknown-player-type
    [ValueError] and there is no game, or the game has its two players to
    the end. *)
Theorem game_never_fails_internally :
  (forall g w res s',
     well_formed g -> play_game (g, w) = (res, s') ->
     plain_end res /\ well_formed (fst s') /\ same_players g (fst s')) /\
  (forall self g w res s',
     well_formed g -> timed_play_game self (g, w) = (res, s') ->
     (plain_end res \/ res = Raise OverflowError) /\
     well_formed (fst s') /\ same_players g (fst s')) /\
  (forall player1_type player2_type timed w res st,
     main player1_type player2_type timed w = (res, st) ->
     match st with
     | None =>
         res = Raise (ValueError "Unknown player type: must be 'human' or 'computer'")
     | Some s' =>
         (plain_end res \/ (timed = true /\ res = Raise OverflowError)) /\
         well_formed (fst s') /\
         map name (players (fst s')) = ["Player 1"; "Player 2"]
     end).
Proof.
  split; [exact play_game_shape | split; [exact timed_play_game_shape|]].
  intros t1 t2 timed w res st Hmain. unfold main in Hmain.
  destruct (PigGame_init t1 t2) as [e | g] eqn:Hinit.
  - injection Hmain as <- <-.
    unfold PigGame_init, create_player in Hinit.
    destruct (String.eqb t1 "human"), (String.eqb t1 "computer"),
      (String.eqb t2 "human"), (String.eqb t2 "computer");
      try discriminate; injection Hinit as <-; reflexivity.
  - apply PigGame_init_shape in Hinit as (Hwf & _ & _ & Hnames & _).
    destruct timed.
    + destruct (timed_play_game (TimedGameProxy_init None) (g, w)) as [r s'] eqn:Hrun.
      injection Hmain as <- <-.
      apply timed_play_game_shape in Hrun as (Hres & Hwf' & [Hn _]); [|exact Hwf].
      split; [destruct Hres; auto | split; [exact Hwf' | congruence]].
    + destruct (play_game (g, w)) as [r s'] eqn:Hrun.
      injection Hmain as <- <-.
      apply play_game_shape in Hrun as (Hres & Hwf' & [Hn _]); [|exact Hwf].
      split; [auto | split; [exact Hwf' | congruence]].
Qed.

(** ** The end of the input *)

(** X4. When a human player is to be asked and the input is at its end, the
    prompt is written and [EOFError] leaves the loop of the turn and
    whatever was to follow it (the banking, the passing of the turn, the rest
    of the game): the roll is consumed and shown, and the game is as it
    was. *)
Theorem end_of_input_at_prompt i t g w p r rs :
  players g !! i = Some p -> kind p = Human ->
  rolls w = r :: rs -> r <> 1 -> inputs w = [] ->
  forall (B : Type) (rest : Z -> M B),
    (total ← turn_loop i t; rest total) (g, w) =
      (Raise EOFError,
       (g, advance w rs [] [ERolled (name p) r; ETurnTotal (t + r) p; EPrompt])).
Proof.
  intros Hp Hk Hr Hne Hin B rest.
  assert (turn_body i t (g, w) =
            (Raise EOFError,
             (g, advance w rs [] [ERolled (name p) r; ETurnTotal (t + r) p; EPrompt])))
    as Hb.
  { destruct w as [rs0 ins0 ck0 out0]. simpl in Hr, Hin. subst rs0 ins0.
    unfold turn_body, get_decision, Die_roll, input, print, advance,
      mbind, M_bind, mret, M_ret.
    simpl. unfold deref. simpl. rewrite Hp. simpl.
    destruct (Z.eqb_spec r 1) as [|_]; [contradiction|].
    rewrite Hk. simpl. rewrite <- !app_assoc. reflexivity. }
  rewrite bind_run, turn_loop_unfold, bind_run, Hb. reflexivity.
Qed.

Lemma end_of_input_at_prompt_witness :
  let a := {| kind := Human; name := "Player 1"; score := 12 |} in
  let b := {| kind := Computer; name := "Player 2"; score := 30 |} in
  let g := {| players := [a; b]; current_player_index := 0 |} in
  let w := {| rolls := [4; 6]; inputs := []; clock := []; out := [] |} in
  (_ ← turn_loop 0 0; switch_player) (g, w) =
    (Raise EOFError,
     (g, {| rolls := [6]; inputs := []; clock := [];
            out := [ERolled "Player 1" 4; ETurnTotal 4 a; EPrompt] |})).
Proof.
  intros a b g w.
  apply (end_of_input_at_prompt 0%nat 0 g w a 4 [6]
           eq_refl eq_refl eq_refl ltac:(lia) eq_refl unit (fun _ => switch_player)).
Defined.

(** ** The rolls of a turn *)

Lemma sum_rolls_snoc rs r : sum_rolls (rs ++ [r]) = sum_rolls rs + r.
Proof.
  unfold sum_rolls. induction rs as [|x rs IH]; simpl; [lia|]. rewrite IH. lia.
Qed.

Lemma not_in_snoc (rs : list Z) (r : Z) : ~ In 1 rs -> r <> 1 -> ~ In 1 (rs ++ [r]).
Proof.
  intros Hrs Hr Hin. apply in_app_iff in Hin as [Hin | [Hin | []]]; [auto | congruence].
Qed.

(** The loop of a turn against the rolls it takes: [used] is what it took
    from the die. *)
Lemma loop_turn_rolls fuel i t0 g0 w0 res s' :
  loop_fuel (turn_body i) fuel t0 (g0, w0) = (res, s') ->
  exists used, rolls w0 = used ++ rolls (snd s') /\
    match res with
    | Ret total =>
        (exists pre, used = pre ++ [1] /\ ~ In 1 pre /\
                     total = t0 + sum_rolls pre /\ fst s' = g0) \/
        (used <> [] /\ ~ In 1 used /\
         total = t0 + sum_rolls used /\ fst s' = add_score i total g0)
    | _ => fst s' = g0
    end.
Proof.
  intros Hrun.
  apply (loop_fuel_inv (turn_body i)
    (fun t s => fst s = g0 /\
                exists used, rolls w0 = used ++ rolls (snd s) /\
                             ~ In 1 used /\ t = t0 + sum_rolls used)
    (fun res s' => exists used, rolls w0 = used ++ rolls (snd s') /\
       match res with
       | Ret total =>
           (exists pre, used = pre ++ [1] /\ ~ In 1 pre /\
                        total = t0 + sum_rolls pre /\ fst s' = g0) \/
           (used <> [] /\ ~ In 1 used /\
            total = t0 + sum_rolls used /\ fst s' = add_score i total g0)
       | _ => fst s' = g0
       end))
    with (fuel := fuel) (a := t0) (s := (g0, w0)); [| | | exact Hrun].
  - intros t [g w] r1 [g1 w1] (Hg & used & Hused & Hno & Ht) Hb.
    simpl in Hg, Hused. subst g.
    apply turn_body_cases in Hb
      as [(Hr & -> & -> & ->) | (r & rs & Hr & Hr1 & Hcase)].
    + exists used. simpl. auto.
    + assert (rolls w0 = (used ++ [r]) ++ rolls w1) as Hused1.
      { rewrite Hused, Hr, Hr1, <- app_assoc. reflexivity. }
      destruct Hcase as [(Hp & -> & -> & Ho) | (p & Hp & Hcase)].
      * exists (used ++ [r]). simpl. auto.
      * destruct Hcase as [(-> & -> & -> & Hi & Ho) | (Hne & asked & Hasked & Hcase)].
        -- exists (used ++ [1]). simpl. split; [exact Hused1|].
           left. exists used. auto.
        -- simpl in Hcase.
           destruct Hcase as [(-> & -> & Ho) | [(-> & -> & Ho) |
                              [(-> & -> & Hk & Ho) | (-> & -> & Hk & Ho)]]].
           ++ simpl. split; [reflexivity|]. exists (used ++ [r]).
              split; [exact Hused1|]. split; [apply not_in_snoc; assumption|].
              rewrite sum_rolls_snoc. lia.
           ++ exists (used ++ [r]). simpl. split; [exact Hused1|].
              right. split; [destruct used; discriminate|].
              split; [apply not_in_snoc; assumption|].
              rewrite sum_rolls_snoc.
              replace (t0 + (sum_rolls used + r)) with (t + r) by lia. auto.
           ++ exists (used ++ [r]). simpl. auto.
           ++ exists (used ++ [r]). simpl. auto.
  - intros t [g w] (Hg & used & Hused & Hno & Ht). exists used. simpl in *. auto.
  - simpl. split; [reflexivity|]. exists []. simpl. split; [reflexivity|].
    split; [tauto | unfold sum_rolls; simpl; lia].
Qed.

(** X5. A turn that returns has taken from the die either some rolls other
    than 1 followed by a 1, and then the players are as they were, or only
    rolls other than 1 (at least one), and then the current player's score
    has grown by exactly the sum of those rolls and no other score has
    changed. *)
Theorem turn_banks_sum_of_rolls g w g' w' :
  play_turn (g, w) = (Ret tt, (g', w')) ->
  exists used, rolls w = used ++ rolls w' /\
    ((exists pre, used = pre ++ [1] /\ ~ In 1 pre /\ players g' = players g) \/
     (used <> [] /\ ~ In 1 used /\
      players g' =
        players (add_score (current_player_index g) (sum_rolls used) g))).
Proof.
  intros Hrun. apply play_turn_run in Hrun.
  destruct Hrun as [(_ & Hres & _) | (p & r1 & g1 & w1 & Hp & Hloop & Hres)];
    [discriminate|].
  apply loop_turn_rolls in Hloop as (used & Hused & Hcase). simpl in Hused, Hcase.
  destruct r1 as [total | e |]; destruct Hres as [Hres Hs]; try discriminate.
  injection Hs as -> ->.
  exists used. split; [exact Hused|]. cbn [players].
  destruct Hcase as [(pre & -> & Hno & _ & ->) | (Hne & Hno & -> & ->)].
  - left. exists pre. auto.
  - right. simpl. auto.
Qed.

Lemma turn_banks_sum_of_rolls_witness :
  let a := {| kind := Human; name := "Player 1"; score := 12 |} in
  let b := {| kind := Computer; name := "Player 2"; score := 30 |} in
  let g := {| players := [a; b]; current_player_index := 0 |} in
  let w := {| rolls := [4; 6; 3; 1]; inputs := ["r"; ""; "h"]; clock := []; out := [] |} in
  exists used, [4; 6; 3; 1] = used ++ [1] /\
    ((exists pre, used = pre ++ [1] /\ ~ In 1 pre /\
                  [{| kind := Human; name := "Player 1"; score := 25 |}; b] = players g) \/
     (used <> [] /\ ~ In 1 used /\
      [{| kind := Human; name := "Player 1"; score := 25 |}; b] =
        players (add_score (current_player_index g) (sum_rolls used) g))).
Proof.
  intros a b g w.
  apply (turn_banks_sum_of_rolls g w
           {| players := [{| kind := Human; name := "Player 1"; score := 25 |}; b];
              current_player_index := 1 |}
           {| rolls := [1]; inputs := []; clock := [];
              out := [ERolled "Player 1" 4; ETurnTotal 4 a; EPrompt;
                      ERolled "Player 1" 6; ETurnTotal 10 a; EPrompt;
                      ERolled "Player 1" 3; ETurnTotal 13 a; EPrompt;
                      EHolds "Player 1" 25] |}).
  reflexivity.
Defined.

(** ** The turn of a computer player *)

Lemma decide_hold_iff p t :
  String.eqb (decide p t) "h" = true <-> threshold p <= t.
Proof.
  unfold decide, threshold.
  destruct (Z.geb_spec t (Z.min 25 (100 - score p))) as [Hge | Hlt]; simpl; split;
    intros E; try reflexivity; try lia; discriminate.
Qed.

(** The loop of the turn of a computer player, whatever the fuel: nothing is
    read, nothing is raised, and a banked total is at or just above the
    threshold. *)
Lemma computer_loop_outcome fuel i t0 g w0 p res s' :
  players g !! i = Some p -> kind p = Computer ->
  Forall valid_roll (rolls w0) ->
  t0 <= Z.max (threshold p - 1) 0 ->
  loop_fuel (turn_body i) fuel t0 (g, w0) = (res, s') ->
  inputs (snd s') = inputs w0 /\
  ((res = Starved /\ fst s' = g) \/
   exists total, res = Ret total /\
     (fst s' = g \/
      (fst s' = add_score i total g /\
       threshold p <= total <= Z.max (threshold p - 1) 0 + 6))).
Proof.
  intros Hp Hk Hv Ht0 Hrun.
  apply (loop_fuel_inv (turn_body i)
    (fun t s => fst s = g /\ inputs (snd s) = inputs w0 /\
                Forall valid_roll (rolls (snd s)) /\
                t <= Z.max (threshold p - 1) 0)
    (fun res s' => inputs (snd s') = inputs w0 /\
       ((res = Starved /\ fst s' = g) \/
        exists total, res = Ret total /\
          (fst s' = g \/
           (fst s' = add_score i total g /\
            threshold p <= total <= Z.max (threshold p - 1) 0 + 6)))))
    with (fuel := fuel) (a := t0) (s := (g, w0)); [| | | exact Hrun].
  - intros t [g1 w] r1 [g2 w2] (Hg & Hin & Hvw & Ht) Hb.
    simpl in Hg, Hin, Hvw. subst g1.
    destruct (rolls w) as [|r rs] eqn:Hr.
    + apply turn_body_cases in Hb
        as [(_ & -> & -> & ->) | (r & rs & Hr' & _)]; [|congruence].
      simpl. auto.
    + apply Forall_cons in Hvw as [Hvr Hvrs]. unfold valid_roll in Hvr.
      destruct (Z.eq_dec r 1) as [-> | Hne].
      * rewrite (turn_body_one _ _ _ _ _ _ Hp Hr) in Hb.
        injection Hb as <- <- <-. simpl. split; [exact Hin|].
        right. exists t. auto.
      * rewrite (turn_body_computer _ _ _ _ _ _ _ Hp Hk Hr Hne) in Hb.
        destruct (String.eqb (decide p (t + r)) "h") eqn:Hd.
        -- apply decide_hold_iff in Hd.
           injection Hb as <- <- <-. simpl. split; [exact Hin|].
           right. exists (t + r). split; [reflexivity|]. right.
           split; [reflexivity | lia].
        -- assert (t + r < threshold p) as Hlt.
           { destruct (Z_lt_ge_dec (t + r) (threshold p)) as [|Hge]; [assumption|].
             assert (String.eqb (decide p (t + r)) "h" = true) as Hd'
               by (apply decide_hold_iff; lia).
             congruence. }
           injection Hb as <- <- <-. simpl.
           split; [reflexivity | split; [exact Hin | split; [exact Hvrs | lia]]].
  - intros t [g1 w] (Hg & Hin & _). simpl in *. auto.
  - simpl. auto.
Qed.

(** With enough valid rolls in the world the loop of a computer player's
    turn returns. *)
Lemma computer_loop_returns i g p (n : nat) :
  players g !! i = Some p -> kind p = Computer ->
  forall t w,
    Forall valid_roll (rolls w) ->
    (n < length (rolls w))%nat ->
    threshold p - t <= 2 * (Z.of_nat n + 1) ->
    exists total g' w',
      turn_loop i t (g, w) = (Ret total, (g', w')) /\
      (length (rolls w) <= length (rolls w') + S n)%nat.
Proof.
  intros Hp Hk. induction n as [|n IH]; intros t w Hv Hlen Hthr.
  - destruct (rolls w) as [|r rs] eqn:Hr; [simpl in Hlen; lia|].
    apply Forall_cons in Hv as [Hvr Hvrs]. unfold valid_roll in Hvr.
    rewrite turn_loop_unfold, bind_run.
    destruct (Z.eq_dec r 1) as [-> | Hne].
    + rewrite (turn_body_one _ _ _ _ _ _ Hp Hr). simpl.
      do 3 eexists. split; [reflexivity|]. simpl. lia.
    + rewrite (turn_body_computer _ _ _ _ _ _ _ Hp Hk Hr Hne).
      assert (String.eqb (decide p (t + r)) "h" = true) as ->
        by (apply decide_hold_iff; lia).
      simpl. do 3 eexists. split; [reflexivity|]. simpl. lia.
  - destruct (rolls w) as [|r rs] eqn:Hr; [simpl in Hlen; lia|].
    apply Forall_cons in Hv as [Hvr Hvrs]. unfold valid_roll in Hvr.
    rewrite turn_loop_unfold, bind_run.
    destruct (Z.eq_dec r 1) as [-> | Hne].
    + rewrite (turn_body_one _ _ _ _ _ _ Hp Hr). simpl.
      do 3 eexists. split; [reflexivity|]. simpl. lia.
    + rewrite (turn_body_computer _ _ _ _ _ _ _ Hp Hk Hr Hne).
      destruct (String.eqb (decide p (t + r)) "h") eqn:Hd.
      * simpl. do 3 eexists. split; [reflexivity|]. simpl. lia.
      * match goal with |- context [turn_loop i (t + r) (g, ?w1)] =>
          destruct (IH (t + r) w1) as (total & g' & w' & Hrun & Hl) end.
        -- exact Hvrs.
        -- simpl in *. lia.
        -- lia.
        -- exists total, g', w'. split; [exact Hrun|]. simpl in *. lia.
Qed.

Lemma play_turn_of_loop g w p total g1 w1 :
  players g !! current_player_index g = Some p ->
  turn_loop (current_player_index g) 0 (g, w) = (Ret total, (g1, w1)) ->
  play_turn (g, w) = (Ret tt, (pass_turn g (players g1), w1)).
Proof.
  intros Hp Hloop. unfold play_turn.
  rewrite bind_run. unfold get_game at 1. cbn [fst snd].
  rewrite bind_run. unfold deref at 1. cbn [fst snd]. rewrite Hp.
  rewrite bind_run, Hloop.
  unfold turn_loop, while in Hloop.
  apply loop_turn_end in Hloop as [Hend _].
  pose proof (turn_end_index _ _ _ _ _ _ Hend) as Hidx.
  apply turn_end_length in Hend. simpl in Hend, Hidx.
  unfold switch_player, pass_turn. cbn [fst snd]. rewrite Hend, Hidx.
  apply lookup_lt_Some in Hp.
  destruct (length (players g)) as [|n] eqn:Hlen; [lia | reflexivity].
Qed.

Lemma computer_play_turn g w p res g' w' :
  players g !! current_player_index g = Some p -> kind p = Computer ->
  Forall valid_roll (rolls w) ->
  play_turn (g, w) = (res, (g', w')) ->
  inputs w' = inputs w /\
  (res = Ret tt \/ res = Starved) /\
  (players g' = players g \/
   exists total,
     players g' = players (add_score (current_player_index g) total g) /\
     threshold p <= total <= Z.max (threshold p - 1) 0 + 6).
Proof.
  intros Hp Hk Hv Hrun. apply play_turn_run in Hrun.
  destruct Hrun as [(Hnone & _) | (p' & r1 & g1 & w1 & Hp' & Hloop & Hres)];
    [congruence|].
  assert (p' = p) as -> by congruence.
  apply (computer_loop_outcome _ _ _ _ _ p) in Hloop; [| assumption .. | lia].
  simpl in Hloop. destruct Hloop as [Hin Hcase].
  destruct Hcase as [(-> & ->) | (total & -> & Hcase)].
  - destruct Hres as [-> Hs]. injection Hs as -> ->. auto.
  - destruct Hres as [-> Hs]. injection Hs as -> ->.
    split; [exact Hin | split; [auto|]]. cbn [players].
    destruct Hcase as [-> | [-> Hb]]; [auto | right; eauto].
Qed.

(** X6. The turn of a computer player, on valid rolls of which there are at
    least 13, always returns: it takes at most 13 rolls, reads nothing from
    the keyboard, and either banks nothing or banks a turn total that is at
    least the player's threshold [min(25, 100 - score)] and at most 6 above
    the larger of [threshold - 1] and 0. *)
Theorem computer_turn_returns_within_13_rolls g w p :
  players g !! current_player_index g = Some p -> kind p = Computer ->
  Forall valid_roll (rolls w) ->
  (13 <= length (rolls w))%nat ->
  exists g' w',
    play_turn (g, w) = (Ret tt, (g', w')) /\
    inputs w' = inputs w /\
    (length (rolls w) <= length (rolls w') + 13)%nat /\
    (players g' = players g \/
     exists total,
       players g' = players (add_score (current_player_index g) total g) /\
       threshold p <= total <= Z.max (threshold p - 1) 0 + 6).
Proof.
  intros Hp Hk Hv Hlen.
  destruct (computer_loop_returns (current_player_index g) g p 12 Hp Hk 0 w Hv)
    as (total & g1 & w1 & Hloop & Hl).
  - lia.
  - unfold threshold. lia.
  - pose proof (play_turn_of_loop _ _ _ _ _ _ Hp Hloop) as Hturn.
    exists (pass_turn g (players g1)), w1.
    split; [exact Hturn|].
    destruct (computer_play_turn _ _ _ _ _ _ Hp Hk Hv Hturn) as (Hin & _ & Hbank).
    auto.
Qed.

Lemma computer_turn_returns_within_13_rolls_witness :
  let a := {| kind := Computer; name := "Player 1"; score := 0 |} in
  let b := {| kind := Human; name := "Player 2"; score := 30 |} in
  let g := {| players := [a; b]; current_player_index := 0 |} in
  let w := {| rolls := [2; 2; 2; 2; 2; 2; 2; 2; 2; 2; 2; 2; 2; 5];
              inputs := ["h"]; clock := []; out := [] |} in
  exists g' w',
    play_turn (g, w) = (Ret tt, (g', w')) /\
    inputs w' = ["h"] /\
    (14 <= length (rolls w') + 13)%nat /\
    (players g' = players g \/
     exists total,
       players g' = players (add_score 0 total g) /\
       25 <= total <= 30).
Proof.
  intros a b g w.
  apply (computer_turn_returns_within_13_rolls g w a).
  - reflexivity.
  - reflexivity.
  - repeat constructor; unfold valid_roll; lia.
  - simpl. lia.
Defined.

(** ** How a game that returns has ended *)

Lemma is_game_over_true g :
  is_game_over g = true ->
  exists (j : nat) q, players g !! j = Some q /\ 100 <= score q.
Proof.
  unfold is_game_over. intros H. apply existsb_exists in H as (q & Hin & Hq).
  apply list_elem_of_In, list_elem_of_lookup in Hin as [j Hj].
  exists j, q. split; [exact Hj|]. apply Z.geb_le in Hq. exact Hq.
Qed.

Lemma is_game_over_false g :
  is_game_over g = false -> Forall (fun p => score p < 100) (players g).
Proof.
  unfold is_game_over. intros H. apply Forall_forall. intros p Hin.
  destruct (Z_lt_ge_dec (score p) 100) as [|Hge]; [assumption|].
  assert (existsb (fun player => score player >=? 100) (players g) = true) as Ht.
  { apply existsb_exists. exists p. split; [by apply list_elem_of_In|].
    apply Z.geb_le. lia. }
  congruence.
Qed.

Lemma game_loop_returns_over s s' :
  game_loop s = (Ret tt, s') -> is_game_over (fst s') = true.
Proof.
  intros Hrun. unfold game_loop, while in Hrun.
  apply (loop_fuel_inv game_body (fun _ _ => True)
           (fun res s' => res = Ret tt -> is_game_over (fst s') = true))
    with (fuel := S (length (rolls (snd s)))) (a := tt) (s := s) (res := Ret tt);
    [| | exact I | exact Hrun | reflexivity].
  - intros [] [g1 w1] r1 s2 _ Hb. unfold game_body in Hb.
    rewrite bind_run in Hb. unfold get_game at 1 in Hb. cbn [fst snd] in Hb.
    destruct (is_game_over g1) eqn:Hover.
    + injection Hb as <- <-. auto.
    + rewrite bind_run in Hb.
      destruct (play_turn (g1, w1)) as [[[] | e |] s3];
        injection Hb as <- <-; try exact I; discriminate.
  - discriminate.
Qed.

(** X7. When [play_game] returns, some player has reached 100: the game is
    over in the final state, and the winner it reports, a player of maximal
    score, has at least 100 points. *)
Theorem play_game_returns_at_100 s s' :
  play_game s = (Ret tt, s') ->
  is_game_over (fst s') = true /\
  exists winner pre,
    first_of_max_score (players (fst s')) winner /\
    100 <= score winner /\
    out (snd s') =
      pre ++ EWins (name winner) (score winner) :: EFinalScores
          :: map EPlayerLine (players (fst s')).
Proof.
  intros Hrun. unfold play_game in Hrun.
  apply bind_ret_inv in Hrun as ([] & s1 & _ & Hrun).
  apply bind_ret_inv in Hrun as ([] & [g2 w2] & Hloop & Hrun).
  apply game_loop_returns_over in Hloop. simpl in Hloop.
  rewrite announce_winner_run in Hrun.
  destruct (max_by_score (players g2)) as [winner|] eqn:Hmax; [|discriminate].
  injection Hrun as <-. simpl. split; [exact Hloop|].
  apply max_by_score_spec in Hmax.
  exists winner, (out w2). split; [exact Hmax | split; [|reflexivity]].
  destruct Hmax as (i & _ & Hall & _).
  apply is_game_over_true in Hloop as (j & q & Hq & Hscore).
  specialize (Hall j q Hq). lia.
Qed.

Lemma play_game_returns_at_100_witness :
  let a := {| kind := Computer; name := "Player 1"; score := 95 |} in
  let b := {| kind := Human; name := "Player 2"; score := 99 |} in
  let a' := {| kind := Computer; name := "Player 1"; score := 101 |} in
  let g := {| players := [a; b]; current_player_index := 0 |} in
  let g' := {| players := [a'; b]; current_player_index := 1 |} in
  let w := {| rolls := [6; 2]; inputs := []; clock := []; out := [] |} in
  is_game_over g' = true /\
  exists winner pre,
    first_of_max_score [a'; b] winner /\
    100 <= score winner /\
    [EWelcome; ERolled "Player 1" 6; ETurnTotal 6 a; EDecides "Player 1" true;
     EHolds "Player 1" 101; EWins "Player 1" 101; EFinalScores;
     EPlayerLine a'; EPlayerLine b] =
      pre ++ EWins (name winner) (score winner) :: EFinalScores
          :: map EPlayerLine [a'; b].
Proof.
  intros a b a' g g' w.
  apply (play_game_returns_at_100 (g, w)
           (g', {| rolls := [2]; inputs := []; clock := [];
                   out := [EWelcome; ERolled "Player 1" 6; ETurnTotal 6 a;
                           EDecides "Player 1" true; EHolds "Player 1" 101;
                           EWins "Player 1" 101; EFinalScores;
                           EPlayerLine a'; EPlayerLine b] |})).
  reflexivity.
Defined.

Lemma timed_loop_returns self start_time s s' :
  timed_loop self start_time s = (Ret tt, s') ->
  is_game_over (fst s') = true \/
  exists elapsed_time pre,
    PrimFloat.ltb (time_limit self) elapsed_time = true /\
    out (snd s') = pre ++ [ETimeUp elapsed_time].
Proof.
  intros Hrun. unfold timed_loop, while in Hrun.
  apply (loop_fuel_inv (timed_body self start_time) (fun _ _ => True)
           (fun res s' => res = Ret tt ->
              is_game_over (fst s') = true \/
              exists elapsed_time pre,
                PrimFloat.ltb (time_limit self) elapsed_time = true /\
                out (snd s') = pre ++ [ETimeUp elapsed_time]))
    with (fuel := S (length (rolls (snd s)))) (a := tt) (s := s) (res := Ret tt);
    [| | exact I | exact Hrun | reflexivity].
  - intros [] [g1 w1] r1 s2 _ Hb. unfold timed_body in Hb.
    rewrite bind_run in Hb. unfold get_game at 1 in Hb. cbn [fst snd] in Hb.
    destruct (is_game_over g1) eqn:Hover.
    + injection Hb as <- <-. auto.
    + rewrite bind_run in Hb. unfold time_time at 1 in Hb. cbn [fst snd] in Hb.
      destruct (clock w1) as [|c cs]; [injection Hb as <- <-; discriminate|].
      destruct (PrimFloat.ltb _ _) eqn:Hlt.
      * rewrite bind_run in Hb. unfold check_int in Hb.
        destruct (PrimFloat.is_infinity _).
        -- injection Hb as <- <-. discriminate.
        -- injection Hb as <- <-. intros _. right.
           exists (PrimFloat.sub c start_time), (out w1). simpl. auto.
      * rewrite bind_run in Hb.
        match type of Hb with context [play_turn ?s] =>
          destruct (play_turn s) as [[[] | e |] s3] end;
          injection Hb as <- <-; try exact I; discriminate.
  - discriminate.
Qed.

(** X8. When the timed game returns, either some player has reached 100, or
    the time was up: the time-up line, with an elapsed time above the limit,
    is on the console right before the winner, who is then picked from the
    scores as they stand. *)
Theorem timed_game_returns_over_or_timed_out self s s' :
  timed_play_game self s = (Ret tt, s') ->
  is_game_over (fst s') = true \/
  exists elapsed_time pre winner,
    PrimFloat.ltb (time_limit self) elapsed_time = true /\
    max_by_score (players (fst s')) = Some winner /\
    out (snd s') =
      pre ++ ETimeUp elapsed_time :: EWins (name winner) (score winner)
          :: EFinalScores :: map EPlayerLine (players (fst s')).
Proof.
  intros Hrun. unfold timed_play_game in Hrun.
  apply bind_ret_inv in Hrun as (start_time & s1 & _ & Hrun).
  apply bind_ret_inv in Hrun as ([] & s2 & _ & Hrun).
  apply bind_ret_inv in Hrun as ([] & [g3 w3] & Hloop & Hrun).
  apply timed_loop_returns in Hloop. simpl in Hloop.
  rewrite announce_winner_run in Hrun.
  destruct (max_by_score (players g3)) as [winner|] eqn:Hmax; [|discriminate].
  injection Hrun as <-. simpl.
  destruct Hloop as [Hover | (elapsed_time & pre & Hlt & Hout)]; [auto|].
  right. exists elapsed_time, pre, winner.
  split; [exact Hlt | split; [exact Hmax|]].
  rewrite Hout, <- app_assoc. reflexivity.
Qed.

Lemma timed_game_returns_over_or_timed_out_witness :
  let a := {| kind := Computer; name := "Player 1"; score := 20 |} in
  let b := {| kind := Computer; name := "Player 2"; score := 41 |} in
  let g := {| players := [a; b]; current_player_index := 0 |} in
  let w := {| rolls := [1; 3]; inputs := []; clock := [50; 51; 120]%float; out := [] |} in
  let g' := {| players := [a; b]; current_player_index := 1 |} in
  is_game_over g' = true \/
  exists elapsed_time pre winner,
    PrimFloat.ltb 60%float elapsed_time = true /\
    max_by_score [a; b] = Some winner /\
    [EStartTimed; ERolled "Player 1" 1; EScoresNothing "Player 1";
     ETimeUp 70%float; EWins "Player 2" 41; EFinalScores;
     EPlayerLine a; EPlayerLine b] =
      pre ++ ETimeUp elapsed_time :: EWins (name winner) (score winner)
          :: EFinalScores :: map EPlayerLine [a; b].
Proof.
  intros a b g w g'.
  apply (timed_game_returns_over_or_timed_out (TimedGameProxy_init None) (g, w)
           (g', {| rolls := [3]; inputs := []; clock := [];
                   out := [EStartTimed; ERolled "Player 1" 1; EScoresNothing "Player 1";
                           ETimeUp 70%float; EWins "Player 2" 41; EFinalScores;
                           EPlayerLine a; EPlayerLine b] |})).
  reflexivity.
Defined.

(** ** A game between computer players *)

Lemma computer_turn_keeps ins0 g w res g' w' :
  computer_game_inv ins0 (g, w) ->
  is_game_over g = false ->
  play_turn (g, w) = (res, (g', w')) ->
  (res = Ret tt \/ res = Starved) /\ computer_game_inv ins0 (g', w').
Proof.
  intros (Hwf & Hall & Hv & Hin & Hcap) Hover Hrun. simpl in *.
  destruct (lookup_lt_is_Some_2 (players g) (current_player_index g) Hwf) as [p Hp].
  assert (kind p = Computer) as Hk by exact (Forall_lookup_1 _ _ _ _ Hall Hp).
  assert (score p < 100) as Hlow
    by exact (Forall_lookup_1 _ _ _ _ (is_game_over_false g Hover) Hp).
  destruct (computer_play_turn _ _ _ _ _ _ Hp Hk Hv Hrun) as (Hin' & Hres & Hbank).
  pose proof (play_turn_keeps_shape _ _ _ _ _ Hrun) as [_ Hwf'].
  apply play_turn_spec in Hrun as [_ (used & Hused & _)]. simpl in Hused.
  split; [exact Hres|].
  unfold computer_game_inv, all_computer. simpl.
  split; [auto|].
  assert (Forall valid_roll (rolls w')) as Hv'.
  { rewrite Hused in Hv. apply Forall_app in Hv as [_ Hv]. exact Hv. }
  destruct Hbank as [-> | (total & -> & Hlo & Hhi)].
  - repeat split; auto; congruence.
  - unfold add_score. simpl.
    split; [|split; [exact Hv' | split; [congruence|]]].
    + apply Forall_alter; [exact Hall|]. intros x _ Hx. exact Hx.
    + apply Forall_alter; [exact Hcap|]. intros x Hx _. simpl.
      assert (x = p) as -> by congruence.
      unfold threshold in Hhi. lia.
Qed.

Lemma computer_game_loop ins0 s res s' :
  computer_game_inv ins0 s ->
  game_loop s = (res, s') ->
  (res = Ret tt \/ res = Starved) /\ computer_game_inv ins0 s'.
Proof.
  intros Hinv Hrun. unfold game_loop, while in Hrun.
  apply (loop_fuel_inv game_body (fun _ s => computer_game_inv ins0 s)
           (fun res s' => (res = Ret tt \/ res = Starved) /\ computer_game_inv ins0 s'))
    with (fuel := S (length (rolls (snd s)))) (a := tt) (s := s);
    [| | exact Hinv | exact Hrun].
  - intros [] [g1 w1] r1 [g2 w2] Hinv1 Hb. unfold game_body in Hb.
    rewrite bind_run in Hb. unfold get_game at 1 in Hb. cbn [fst snd] in Hb.
    destruct (is_game_over g1) eqn:Hover.
    + injection Hb as <- <- <-. auto.
    + rewrite bind_run in Hb.
      destruct (play_turn (g1, w1)) as [r2 [g3 w3]] eqn:Hturn.
      destruct (computer_turn_keeps _ _ _ _ _ _ Hinv1 Hover Hturn) as [Hres Hinv3].
      destruct r2 as [[] | e |]; injection Hb as <- <- <-; auto.
  - intros [] s1 Hinv1. auto.
Qed.

Lemma computer_timed_loop self start_time ins0 s res s' :
  computer_game_inv ins0 s ->
  timed_loop self start_time s = (res, s') ->
  (res = Ret tt \/ res = Starved \/ res = Raise OverflowError) /\
  computer_game_inv ins0 s'.
Proof.
  intros Hinv Hrun. unfold timed_loop, while in Hrun.
  apply (loop_fuel_inv (timed_body self start_time)
           (fun _ s => computer_game_inv ins0 s)
           (fun res s' => (res = Ret tt \/ res = Starved \/ res = Raise OverflowError) /\
                          computer_game_inv ins0 s'))
    with (fuel := S (length (rolls (snd s)))) (a := tt) (s := s);
    [| | exact Hinv | exact Hrun].
  - intros [] [g1 w1] r1 [g2 w2] Hinv1 Hb. unfold timed_body in Hb.
    rewrite bind_run in Hb. unfold get_game at 1 in Hb. cbn [fst snd] in Hb.
    destruct (is_game_over g1) eqn:Hover.
    + injection Hb as <- <- <-. auto.
    + rewrite bind_run in Hb. unfold time_time at 1 in Hb. cbn [fst snd] in Hb.
      destruct (clock w1) as [|c cs] eqn:Hclock.
      * injection Hb as <- <- <-. auto.
      * assert (computer_game_inv ins0
                  (g1, {| rolls := rolls w1; inputs := inputs w1; clock := cs;
                          out := out w1 |})) as Hinv2 by exact Hinv1.
        destruct (PrimFloat.ltb _ _).
        -- rewrite bind_run in Hb. unfold check_int in Hb.
           destruct (PrimFloat.is_infinity _); injection Hb as <- <- <-; auto.
        -- rewrite bind_run in Hb.
           match type of Hb with context [play_turn ?s] =>
             destruct (play_turn s) as [r2 [g3 w3]] eqn:Hturn end.
           destruct (computer_turn_keeps _ _ _ _ _ _ Hinv2 Hover Hturn) as [Hres Hinv3].
           destruct r2 as [[] | e |]; injection Hb as <- <- <-.
           ++ exact Hinv3.
           ++ destruct Hres; discriminate.
           ++ split; [auto | exact Hinv3].
  - intros [] s1 Hinv1. auto.
Qed.

(** X9. In a game between computer players, started with a valid index on
    valid rolls and no score above 105, untimed or timed: nothing is ever
    read from the keyboard, no score ever exceeds 105, and the game ends
    normally (or, in the timed game, by the [OverflowError] of the time-up
    line) unless the oracle runs dry. *)
Theorem computer_game_caps_scores :
  (forall g w res g' w',
     computer_game_inv (inputs w) (g, w) ->
     play_game (g, w) = (res, (g', w')) ->
     (res = Ret tt \/ res = Starved) /\
     inputs w' = inputs w /\
     Forall (fun p => score p <= 105) (players g')) /\
  (forall self g w res g' w',
     computer_game_inv (inputs w) (g, w) ->
     timed_play_game self (g, w) = (res, (g', w')) ->
     (res = Ret tt \/ res = Starved \/ res = Raise OverflowError) /\
     inputs w' = inputs w /\
     Forall (fun p => score p <= 105) (players g')).
Proof.
  split.
  - intros g w res g' w' Hinv Hrun. unfold play_game in Hrun.
    rewrite bind_run, print_run, bind_run in Hrun.
    match type of Hrun with context [game_loop ?s] =>
      destruct (game_loop s) as [r1 [g1 w1]] eqn:Hloop end.
    apply (computer_game_loop (inputs w)) in Hloop
      as [Hres (Hwf & _ & _ & Hin & Hcap)]; [|exact Hinv].
    simpl in Hwf, Hin, Hcap.
    destruct r1 as [[] | e |].
    + rewrite announce_winner_run in Hrun. unfold well_formed in Hwf.
      destruct (players g1) as [|p ps] eqn:Hps; [simpl in Hwf; lia|].
      simpl in Hrun. injection Hrun as <- <- <-. simpl. rewrite Hps. auto.
    + destruct Hres; discriminate.
    + injection Hrun as <- <- <-. auto.
  - intros self g w res g' w' Hinv Hrun. unfold timed_play_game in Hrun.
    rewrite bind_run in Hrun. unfold time_time at 1 in Hrun. cbn [fst snd] in Hrun.
    destruct Hinv as (Hwf0 & Hall0 & Hv0 & _ & Hcap0). simpl in *.
    destruct (clock w) as [|start_time cs].
    { injection Hrun as <- <- <-. auto. }
    rewrite bind_run, print_run, bind_run in Hrun.
    match type of Hrun with context [timed_loop _ _ ?s] =>
      destruct (timed_loop self start_time s) as [r1 [g1 w1]] eqn:Hloop end.
    apply (computer_timed_loop self start_time (inputs w)) in Hloop
      as [Hres (Hwf & _ & _ & Hin & Hcap)];
      [| unfold computer_game_inv; simpl; auto].
    simpl in Hwf, Hin, Hcap.
    destruct r1 as [[] | e |].
    + rewrite announce_winner_run in Hrun. unfold well_formed in Hwf.
      destruct (players g1) as [|p ps] eqn:Hps; [simpl in Hwf; lia|].
      simpl in Hrun. injection Hrun as <- <- <-. simpl. rewrite Hps. auto.
    + injection Hrun as <- <- <-. destruct Hres as [? | [? | ?]]; auto.
    + injection Hrun as <- <- <-. auto.
Qed.

Lemma computer_game_caps_scores_witness :
  let a := {| kind := Computer; name := "Player 1"; score := 99 |} in
  let b := {| kind := Computer; name := "Player 2"; score := 0 |} in
  let g := {| players := [a; b]; current_player_index := 0 |} in
  let w := {| rolls := [6; 2]; inputs := ["q"]; clock := []; out := [] |} in
  let a' := {| kind := Computer; name := "Player 1"; score := 105 |} in
  (Ret tt = Ret tt \/ Ret tt = @Starved unit) /\
  ["q"] = inputs w /\
  Forall (fun p => score p <= 105) [a'; b].
Proof.
  intros a b g w a'.
  apply (proj1 computer_game_caps_scores g w (Ret tt)
           {| players := [a'; b]; current_player_index := 1 |}
           {| rolls := [2]; inputs := ["q"]; clock := [];
              out := [EWelcome; ERolled "Player 1" 6; ETurnTotal 6 a;
                      EDecides "Player 1" true; EHolds "Player 1" 105;
                      EWins "Player 1" 105; EFinalScores;
                      EPlayerLine a'; EPlayerLine b] |}).
  - unfold computer_game_inv, well_formed, all_computer. simpl.
    repeat split; repeat constructor; unfold valid_roll; simpl; lia.
  - reflexivity.
Defined.

(** ** Resetting a played game *)

Lemma reset_score_of_same (l0 : list Player) : forall l : list Player,
  map name l = map name l0 -> map kind l = map kind l0 ->
  Forall (fun p => score p = 0) l0 ->
  map reset_score l = l0.
Proof.
  induction l0 as [|p0 l0 IH]; intros [|p l] Hn Hk Hz; simpl in *;
    try discriminate; [reflexivity|].
  injection Hn as Hn1 Hn. injection Hk as Hk1 Hk.
  apply Forall_cons in Hz as [Hz1 Hz].
  f_equal; [|apply IH; assumption].
  destruct p0 as [k0 n0 s0]. simpl in *. subst. reflexivity.
Qed.

Lemma reset_game_not_over g : is_game_over (reset_game g) = false.
Proof.
  unfold is_game_over, reset_game. simpl.
  induction (players g) as [|p ps IH]; simpl; [reflexivity | exact IH].
Qed.

(** X10. [reset_game] takes a game built by [PigGame.__init__] back to
    exactly the state it was built in, whatever has been played since:
    after any run of [play_game] or of the timed game from that state,
    however it ended, resetting gives the initial game again (same players,
    scores 0, player 1 to move), and that game is not over. *)
Theorem reset_restores_new_game player1_type player2_type g0 :
  PigGame_init player1_type player2_type = inr g0 ->
  reset_game g0 = g0 /\
  is_game_over g0 = false /\
  (forall w res s', play_game (g0, w) = (res, s') -> reset_game (fst s') = g0) /\
  (forall self w res s',
     timed_play_game self (g0, w) = (res, s') -> reset_game (fst s') = g0).
Proof.
  intros Hinit.
  apply PigGame_init_shape in Hinit as (Hwf & _ & Hidx & _ & Hzero).
  assert (forall g', same_players g0 g' -> reset_game g' = g0) as Hreset.
  { intros g' [Hn Hk]. unfold reset_game.
    rewrite (reset_score_of_same (players g0) (players g') Hn Hk Hzero).
    destruct g0 as [ps i]. simpl in *. subst i. reflexivity. }
  assert (reset_game g0 = g0) as Hself by (apply Hreset, same_players_refl).
  split; [exact Hself | split; [|split]].
  - rewrite <- Hself. apply reset_game_not_over.
  - intros w res s' Hrun. apply Hreset.
    apply play_game_shape in Hrun as (_ & _ & Hsame); assumption.
  - intros self w res s' Hrun. apply Hreset.
    apply timed_play_game_shape in Hrun as (_ & _ & Hsame); assumption.
Qed.

Lemma reset_restores_new_game_witness :
  let g0 := {| players := [Player_init Human "Player 1";
                           Player_init Computer "Player 2"];
               current_player_index := 0 |} in
  reset_game g0 = g0 /\
  is_game_over g0 = false /\
  (forall w res s', play_game (g0, w) = (res, s') -> reset_game (fst s') = g0) /\
  (forall self w res s',
     timed_play_game self (g0, w) = (res, s') -> reset_game (fst s') = g0).
Proof.
  intros g0. apply (reset_restores_new_game "human" "computer" g0). reflexivity.
Defined.

(** ** The timed game while the time is not up *)

(** A turn does not look at the clock. *)
Lemma turn_body_clock i t g w cs :
  turn_body i t (g, with_clock cs w) =
  let '(r, (g', w')) := turn_body i t (g, w) in (r, (g', with_clock cs w')).
Proof.
  destruct w as [rs ins ck o]. destruct rs as [|r rs]; [reflexivity|].
  unfold turn_body, get_decision, Die_roll, input, print, modify_game, raise,
    with_clock, mbind, M_bind, mret, M_ret.
  simpl. unfold deref at 1 3. simpl.
  destruct (players g !! i) as [p|]; [|reflexivity]. simpl.
  destruct (r =? 1); [reflexivity|].
  destruct (kind p); simpl.
  - destruct ins as [|line ins]; simpl; [reflexivity|].
    destruct (is_quit _); [reflexivity|]. simpl.
    destruct (String.eqb _ "h"); [|reflexivity].
    unfold deref. simpl.
    destruct (alter _ i (players g) !! i); reflexivity.
  - destruct (String.eqb _ "h"); [|reflexivity].
    unfold deref. simpl.
    destruct (alter _ i (players g) !! i); reflexivity.
Qed.

Lemma loop_turn_clock i cs fuel : forall t g w,
  loop_fuel (turn_body i) fuel t (g, with_clock cs w) =
  let '(r, (g', w')) := loop_fuel (turn_body i) fuel t (g, w) in
  (r, (g', with_clock cs w')).
Proof.
  induction fuel as [|n IH]; intros t g w; [reflexivity|].
  simpl. rewrite !bind_run, turn_body_clock.
  destruct (turn_body i t (g, w)) as [[[t' | total] | e |] [g1 w1]]; try reflexivity.
  apply IH.
Qed.

Lemma play_turn_clock g w cs :
  play_turn (g, with_clock cs w) =
  let '(r, (g', w')) := play_turn (g, w) in (r, (g', with_clock cs w')).
Proof.
  unfold play_turn. rewrite !bind_run. unfold get_game. cbn [fst snd].
  rewrite !bind_run. unfold deref. cbn [fst snd].
  destruct (players g !! current_player_index g) as [p|]; [|reflexivity].
  rewrite !bind_run. unfold turn_loop, while. cbn [fst snd].
  change (rolls (with_clock cs w)) with (rolls w).
  rewrite loop_turn_clock.
  destruct (loop_fuel (turn_body (current_player_index g)) (S (length (rolls w))) 0 (g, w))
    as [[total | e |] [g1 w1]]; try reflexivity.
  unfold switch_player. cbn [fst snd].
  destruct (length (players g1)); reflexivity.
Qed.

Lemma with_clock_same w : with_clock (clock w) w = w.
Proof. destruct w; reflexivity. Qed.

Lemma timed_loop_as_game_loop self start_time (n : nat) : forall g w cs res g' w',
  (length (rolls w) <= n)%nat ->
  (length (rolls w) < length cs)%nat ->
  Forall (fun c => PrimFloat.ltb (time_limit self) (PrimFloat.sub c start_time) = false)
         cs ->
  game_loop (g, w) = (res, (g', w')) ->
  exists cs', timed_loop self start_time (g, with_clock cs w) =
                (res, (g', with_clock cs' w')).
Proof.
  induction n as [|n IH]; intros g w cs res g' w' Hn Hlen Hclock Hrun.
  - rewrite game_loop_unfold in Hrun. rewrite timed_loop_unfold.
    destruct (is_game_over g).
    + injection Hrun as <- <- <-. exists cs. reflexivity.
    + destruct cs as [|c cs]; [simpl in Hlen; lia|].
      apply Forall_cons in Hclock as [Hc Hcs].
      rewrite bind_run. unfold time_time. cbn [fst snd with_clock clock]. cbv zeta.
      rewrite Hc. rewrite bind_run in Hrun. rewrite bind_run.
      match goal with |- context [play_turn (g, ?x)] =>
        change x with (with_clock cs w) end.
      rewrite play_turn_clock.
      destruct (play_turn (g, w)) as [r1 [g1 w1]] eqn:Hturn.
      apply play_turn_spec in Hturn as [_ (used & Hused & Hne)]. simpl in Hused.
      destruct r1 as [[] | e |].
      * exfalso. specialize (Hne eq_refl).
        rewrite Hused, length_app in Hn. destruct used; [congruence | simpl in Hn; lia].
      * injection Hrun as <- <- <-. eauto.
      * injection Hrun as <- <- <-. eauto.
  - rewrite game_loop_unfold in Hrun. rewrite timed_loop_unfold.
    destruct (is_game_over g).
    + injection Hrun as <- <- <-. exists cs. reflexivity.
    + destruct cs as [|c cs]; [simpl in Hlen; lia|].
      apply Forall_cons in Hclock as [Hc Hcs].
      rewrite bind_run. unfold time_time. cbn [fst snd with_clock clock]. cbv zeta.
      rewrite Hc. rewrite bind_run in Hrun. rewrite bind_run.
      match goal with |- context [play_turn (g, ?x)] =>
        change x with (with_clock cs w) end.
      rewrite play_turn_clock.
      destruct (play_turn (g, w)) as [r1 [g1 w1]] eqn:Hturn.
      apply play_turn_spec in Hturn as [_ (used & Hused & Hne)]. simpl in Hused.
      destruct r1 as [[] | e |].
      * specialize (Hne eq_refl).
        assert (length (rolls w1) < length (rolls w))%nat as Hless.
        { rewrite Hused, length_app. destruct used; [congruence | simpl; lia]. }
        apply (IH g1 w1 cs res g' w'); [lia | simpl in Hlen; lia | exact Hcs | exact Hrun].
      * injection Hrun as <- <- <-. eauto.
      * injection Hrun as <- <- <-. eauto.
Qed.

(** X11. As long as no reading of the clock puts the elapsed time above the
    limit (and the clock has a reading for every check), the loop of the
    timed game does exactly what the loop of [play_game] does: the same
    outcome, the same game, the same rolls and lines taken, the same console
    output; only the clock has been read. *)
Theorem timed_loop_without_timeout self start_time g w res g' w' :
  (length (rolls w) < length (clock w))%nat ->
  Forall (fun c => PrimFloat.ltb (time_limit self) (PrimFloat.sub c start_time) = false)
         (clock w) ->
  game_loop (g, w) = (res, (g', w')) ->
  exists cs, timed_loop self start_time (g, w) = (res, (g', with_clock cs w')).
Proof.
  intros Hlen Hclock Hrun.
  destruct (timed_loop_as_game_loop self start_time (length (rolls w))
              g w (clock w) res g' w') as [cs' Htimed];
    [lia | exact Hlen | exact Hclock | exact Hrun |].
  rewrite with_clock_same in Htimed. exists cs'. exact Htimed.
Qed.

Lemma timed_loop_without_timeout_witness :
  let a := {| kind := Computer; name := "Player 1"; score := 95 |} in
  let b := {| kind := Computer; name := "Player 2"; score := 90 |} in
  let g := {| players := [a; b]; current_player_index := 0 |} in
  let w := {| rolls := [1; 6; 4]; inputs := []; clock := [10; 20; 30; 40]%float;
              out := [] |} in
  let g' := {| players := [a; {| kind := Computer; name := "Player 2"; score := 100 |}];
               current_player_index := 0 |} in
  let w' := {| rolls := []; inputs := []; clock := [10; 20; 30; 40]%float;
               out := [ERolled "Player 1" 1; EScoresNothing "Player 1";
                       ERolled "Player 2" 6; ETurnTotal 6 b; EDecides "Player 2" false;
                       ERolled "Player 2" 4; ETurnTotal 10 b; EDecides "Player 2" true;
                       EHolds "Player 2" 100] |} in
  exists cs, timed_loop (TimedGameProxy_init None) 5%float (g, w) =
               (Ret tt, (g', with_clock cs w')).
Proof.
  intros a b g w g' w'.
  apply (timed_loop_without_timeout (TimedGameProxy_init None) 5%float g w (Ret tt) g' w').
  - simpl. lia.
  - repeat constructor.
  - reflexivity.
Defined.

(** ** The line of a player *)

Lemma append_cancel_l (s a b : string) :
  String.append s a = String.append s b -> a = b.
Proof. induction s as [|c s IH]; simpl; intros H; [exact H | injection H as H; auto]. Qed.

Lemma append_length (a b : string) :
  String.length (String.append a b) = (String.length a + String.length b)%nat.
Proof. induction a as [|c a IH]; simpl; [reflexivity | rewrite IH; reflexivity]. Qed.

Lemma append_cancel_r (c : string) : forall a b : string,
  String.append a c = String.append b c -> a = b.
Proof.
  induction a as [|x a IH]; intros [|y b] H; simpl in H.
  - reflexivity.
  - apply (f_equal String.length) in H. simpl in H. rewrite append_length in H. lia.
  - apply (f_equal String.length) in H. simpl in H. rewrite append_length in H. lia.
  - injection H as -> H. f_equal. apply IH. exact H.
Qed.

Lemma str_int_parses (n : Z) :
  NilZero.int_of_string (str_int n) = Some (Z.to_int n).
Proof.
  unfold str_int. apply NilZero.isi.
  - destruct n as [|q|q]; simpl; try discriminate.
    intros [= H]. exact (Unsigned.to_uint_nonnil q H).
  - destruct n as [|q|q]; simpl; try discriminate.
    intros [= H]. exact (Unsigned.to_uint_nonnil q H).
Qed.

(** X12. The line [Player.__str__] gives can be read back: parsing the
    digits between the name with its colon and the word points gives the
    score, so two players of the same name have the same line only when they
    have the same score. *)
Theorem player_line_determines_score (p q : Player) :
  name p = name q -> Player_str p = Player_str q -> score p = score q.
Proof.
  intros Hname Hline. unfold Player_str in Hline. rewrite Hname in Hline.
  apply append_cancel_l, append_cancel_l, append_cancel_r in Hline.
  apply (f_equal NilZero.int_of_string) in Hline.
  rewrite !str_int_parses in Hline. injection Hline as Hline.
  apply (f_equal Z.of_int) in Hline. rewrite !DecimalZ.of_to in Hline. exact Hline.
Qed.

Lemma player_line_determines_score_witness :
  let p := {| kind := Human; name := "Player 1"; score := 105 |} in
  let q := {| kind := Computer; name := "Player 1"; score := 105 |} in
  Player_str p = "Player 1: 105 points" /\ score p = score q.
Proof.
  intros p q. split; [reflexivity|].
  apply (player_line_determines_score p q); reflexivity.
Defined.
